(** * Vehicle mapping core of dora-examples: a shallow embedding in Rocq

    Sources (examples/vehicle-mapping/src):
    - [simple_icp.py]              SimpleICPOdometry.run_on_sequence
    - [operators/icp_odometry_op.py] Operator._register_frame / on_event
    - [waypoint_extractor.py]      WaypointExtractor (distance filter,
                                   Z filter, Douglas-Peucker)
    - [operators/waypoint_extractor_op.py] Operator._extract_waypoints
    - [loop_detector.py]           LoopDetector.detect_candidates,
                                   ScanContextDetector
    - [pose_graph.py]              PoseGraphOptimizer.build_from_odometry

    numpy float64 arithmetic is idealised as real arithmetic ([R]);
    comparisons are decided with [Rlt_dec] / [Rle_dec].  The external
    libraries (Open3D preprocessing and ICP, numpy's matrix inverse, GTSAM)
    are Section variables, so every theorem holds for any behaviour of them. *)

From Stdlib Require Import String.
From Stdlib Require Import Reals Lra Psatz List ZArith Permutation Sorted.

Import ListNotations.
Open Scope R_scope.

(* ------------------------------------------------------------------ *)
(** ** Geometry: 3-vectors, 3x3 matrices, homogeneous 4x4 poses *)

Record V3 := mkV3 { vx : R; vy : R; vz : R }.

Definition vadd (a b : V3) : V3 := mkV3 (vx a + vx b) (vy a + vy b) (vz a + vz b).
Definition vsub (a b : V3) : V3 := mkV3 (vx a - vx b) (vy a - vy b) (vz a - vz b).
Definition dot3 (a b : V3) : R := vx a * vx b + vy a * vy b + vz a * vz b.
(** [np.linalg.norm] of a 3-vector. *)
Definition norm3 (a : V3) : R := sqrt (dot3 a a).
Definition zero3 : V3 := mkV3 0 0 0.

(** A 3x3 matrix by rows. *)
Record M3 := mkM3 { row0 : V3; row1 : V3; row2 : V3 }.

Definition col0 (m : M3) : V3 := mkV3 (vx (row0 m)) (vx (row1 m)) (vx (row2 m)).
Definition col1 (m : M3) : V3 := mkV3 (vy (row0 m)) (vy (row1 m)) (vy (row2 m)).
Definition col2 (m : M3) : V3 := mkV3 (vz (row0 m)) (vz (row1 m)) (vz (row2 m)).

(** Matrix-vector product [m @ v]. *)
Definition mv (m : M3) (v : V3) : V3 :=
  mkV3 (dot3 (row0 m) v) (dot3 (row1 m) v) (dot3 (row2 m) v).

(** Matrix product [a @ b]. *)
Definition mm (a b : M3) : M3 :=
  let r (x : V3) := mkV3 (dot3 x (col0 b)) (dot3 x (col1 b)) (dot3 x (col2 b)) in
  mkM3 (r (row0 a)) (r (row1 a)) (r (row2 a)).

Definition I3 : M3 := mkM3 (mkV3 1 0 0) (mkV3 0 1 0) (mkV3 0 0 1).

(** A 4x4 homogeneous transform [[R, t], [0, 0, 0, 1]]: [pose[:3, :3]] is
    [rot], [pose[:3, 3]] is [trans].  Every 4x4 matrix the code builds or
    receives (np.eye(4), ICP results, products of those) has this shape. *)
Record Mat4 := mkMat4 { rot : M3; trans : V3 }.

(** [a @ b] on homogeneous matrices. *)
Definition matmul4 (a b : Mat4) : Mat4 :=
  mkMat4 (mm (rot a) (rot b)) (vadd (mv (rot a) (trans b)) (trans a)).

Definition eye4 : Mat4 := mkMat4 I3 zero3.

(** The pure translation [[I, v], [0, 1]]. *)
Definition translate (v : V3) : Mat4 := mkMat4 I3 v.

(** A rotation by 90 degrees about +Z. *)
Definition Rz90 : M3 := mkM3 (mkV3 0 (-1) 0) (mkV3 1 0 0) (mkV3 0 0 1).

(** [(T[:3, :3] @ p.T).T + T[:3, 3]] for one point. *)
Definition apply_pose (T : Mat4) (p : V3) : V3 := vadd (mv (rot T) p) (trans T).

(* ------------------------------------------------------------------ *)
(** ** ICP odometry (simple_icp.py, icp_odometry_op.py) *)

(** The result object of [o3d.pipelines.registration.registration_icp]. *)
Record IcpResult := mkIcpResult {
  transformation : Mat4;
  fitness : R;
  inlier_rmse : R
}.

(** [expected_motion = 0.25  # Approximate motion per frame] *)
Definition expected_motion : R := 0.25.

(** The motion-model pose, [poses[-1]] being [prev] and [poses[-2]] (when
    [len(poses) >= 2]) being [before]:
<<
    if len(poses) >= 2:
        velocity = poses[-1][:3, 3] - poses[-2][:3, 3]
        T_abs = poses[-1].copy()
        T_abs[:3, 3] += velocity
    else:
        T_abs = poses[-1].copy()
>> *)
Definition motion_fallback (prev : Mat4) (before : option Mat4) : Mat4 :=
  match before with
  | Some p2 =>
      let velocity := vsub (trans prev) (trans p2) in
      mkMat4 (rot prev) (vadd (trans prev) velocity)
  | None => prev
  end.

(** Lines 158-178 of [run_on_sequence]: compose the ICP correction with the
    previous pose and validate the jump.  [prev] is [poses[-1]], [older] the
    poses before it, newest first.  Returns [(T_abs, fitness)]. *)
Definition icp_iteration (prev : Mat4) (older : list Mat4)
    (T_correction : Mat4) (fit : R) : Mat4 * R :=
  let T_abs := matmul4 T_correction prev in
  let delta_pos := norm3 (vsub (trans T_abs) (trans prev)) in
  if Rlt_dec (expected_motion * 3) delta_pos
  then (motion_fallback prev (hd_error older), 0)
  else (T_abs, fit).

(** Lines 131-147 of [Operator._register_frame] (threshold written 0.75). *)
Definition op_validate (prev : Mat4) (older : list Mat4)
    (T_correction : Mat4) (fit : R) : Mat4 * R :=
  let T_abs := matmul4 T_correction prev in
  let delta_pos := norm3 (vsub (trans T_abs) (trans prev)) in
  if Rlt_dec 0.75 delta_pos
  then (motion_fallback prev (hd_error older), 0)
  else (T_abs, fit).

(** [pts[::step]] *)
Fixpoint stride_from {A} (step k : nat) (l : list A) : list A :=
  match l with
  | [] => []
  | x :: t =>
      match k with
      | O => x :: stride_from step (Nat.pred step) t
      | S k' => stride_from step k' t
      end
  end.

Definition stride {A} (l : list A) (step : nat) : list A := stride_from step O l.

(** [step = max(1, len(pts) // 5000); pts[::step]] *)
Definition decimate (pts : list V3) : list V3 :=
  stride pts (Nat.max 1 (Nat.div (length pts) 5000)).

Section Odometry.

(** [preprocess]: voxel downsampling and normal estimation (Open3D). *)
Variable preprocess : list V3 -> list V3.
(** [registration_icp(source, target, ...)] (Open3D point-to-plane ICP). *)
Variable registration_icp : list V3 -> list V3 -> IcpResult.

(** Arguments of [run_on_sequence]. *)
Variable use_local_map : bool.
Variable window_size : Z.

(** Loop state of [run_on_sequence]: [poses] (split as [poses[-1]] and the
    older poses, newest first) and [world_clouds] (oldest first). *)
Record SeqState := mkSeqState {
  seq_prev : Mat4;
  seq_older : list Mat4;
  seq_world : list (list V3)
}.

(** Target cloud of frame [i]; [world] has exactly [i] entries, so every
    [world_clouds[j]] read below is in range.  [None] when
    [np.vstack(local_map_points)] raises on an empty list (the range
    [range(start_idx, i)] is empty when [window_size <= 0]). *)
Definition seq_target (i : nat) (world : list (list V3)) : option (list V3) :=
  let start_idx := Z.to_nat (Z.max 0 (Z.of_nat i - window_size)) in
  if (use_local_map && (1 <? i)%nat)%bool
  then
    match map (fun j => decimate (nth j world [])) (seq start_idx (i - start_idx)) with
    | [] => None
    | local_map_points => Some (preprocess (concat local_map_points))
    end
  else Some (preprocess (nth (i - 1) world [])).

(** One iteration of [for i in range(1, n_frames)]; returns the new state
    and the frame's [(T_abs, fitness)], [None] when it raises. *)
Definition seq_step (i : nat) (st : SeqState) (cloud : list V3)
    : option (SeqState * (Mat4 * R)) :=
  match seq_target i (seq_world st) with
  | None => None
  | Some target_pcd =>
      let curr_pts := preprocess cloud in
      let curr_world := map (apply_pose (seq_prev st)) curr_pts in
      let result := registration_icp curr_world target_pcd in
      let '(T_abs, fit) :=
        icp_iteration (seq_prev st) (seq_older st) (transformation result) (fitness result) in
      Some (mkSeqState T_abs (seq_prev st :: seq_older st)
              (seq_world st ++ [map (apply_pose T_abs) cloud]),
            (T_abs, fit))
  end.

Fixpoint seq_frames (i : nat) (st : SeqState) (clouds : list (list V3))
    : option (list (Mat4 * R)) :=
  match clouds with
  | [] => Some []
  | c :: cs =>
      match seq_step i st c with
      | None => None
      | Some (st', out) => option_map (cons out) (seq_frames (S i) st' cs)
      end
  end.

(** [(pose_i, fitness_i)] of every frame [i >= 1]. *)
Definition run_trace (point_clouds : list (list V3)) : option (list (Mat4 * R)) :=
  match point_clouds with
  | [] => Some []
  | c0 :: rest => seq_frames 1 (mkSeqState eye4 [] [c0]) rest
  end.

(** [SimpleICPOdometry.run_on_sequence]: the absolute poses ([None] when it
    raises). *)
Definition run_on_sequence (point_clouds : list (list V3)) : option (list Mat4) :=
  match point_clouds with
  | [] => Some []
  | _ => option_map (fun tr => eye4 :: map fst tr) (run_trace point_clouds)
  end.

End Odometry.

Section OdometryOperator.

Variable preprocess : list V3 -> list V3.
Variable registration_icp : list V3 -> list V3 -> IcpResult.

(** [self.window_size = 5] *)
Definition op_window_size : nat := 5.

(** State of the ICP odometry [Operator]: [self.poses] (as [poses[-1]] and
    the older poses, newest first), [self.world_clouds], [self.frame_count]. *)
Record OpState := mkOpState {
  op_prev : Mat4;
  op_older : list Mat4;
  op_world : list (list V3);
  op_frame_count : nat
}.

(** [__init__]: [self.poses = [np.eye(4)]], no world clouds, count 0. *)
Definition op_init : OpState := mkOpState eye4 [] [] 0.

(** [Operator._register_frame]: the new state and [(pose, fitness, rmse)]. *)
Definition register_frame (st : OpState) (points : list V3)
    : OpState * (Mat4 * R * R) :=
  match op_frame_count st with
  | O =>
      (mkOpState (op_prev st) (op_older st) (op_world st ++ [points])
         (S (op_frame_count st)),
       (eye4, 1, 0))
  | S _ =>
      let start_idx := (length (op_world st) - op_window_size)%nat in
      let local_map_points := map decimate (skipn start_idx (op_world st)) in
      match local_map_points with
      | [] => (st, (op_prev st, 0, 0))
      | _ :: _ =>
          let target_pcd := preprocess (concat local_map_points) in
          let curr_pts := preprocess points in
          let prev_pose := op_prev st in
          let curr_world := map (apply_pose prev_pose) curr_pts in
          let result := registration_icp curr_world target_pcd in
          let '(T_abs, fit) :=
            op_validate prev_pose (op_older st) (transformation result) (fitness result) in
          (mkOpState T_abs (prev_pose :: op_older st)
             (op_world st ++ [map (apply_pose T_abs) points])
             (S (op_frame_count st)),
           (T_abs, fit, inlier_rmse result))
      end
  end.

End OdometryOperator.

(** [DoraStatus] *)
Inductive DoraStatus := CONTINUE | STOP.

(** The events an operator receives: an ["INPUT"] with its id and value, a
    ["STOP"], or any other event type. *)
Inductive DoraEvent :=
  | Input (id : String.string) (value : list R)
  | StopEvent
  | OtherEvent.

(** A [send_output(name, values, metadata)] call. *)
Definition Output := (String.string * list R)%type.

(** [points_flat.reshape(-1, 3)]; [None] when numpy raises (length not a
    multiple of 3). *)
Fixpoint reshape3 (l : list R) : option (list V3) :=
  match l with
  | [] => Some []
  | a :: b :: c :: t => option_map (cons (mkV3 a b c)) (reshape3 t)
  | _ => None
  end.

(** [pose.flatten()] of a homogeneous 4x4 matrix (row-major). *)
Definition flatten4 (T : Mat4) : list R :=
  let r0 := row0 (rot T) in
  let r1 := row1 (rot T) in
  let r2 := row2 (rot T) in
  [vx r0; vy r0; vz r0; vx (trans T);
   vx r1; vy r1; vz r1; vy (trans T);
   vx r2; vy r2; vz r2; vz (trans T);
   0; 0; 0; 1].

(** [Operator.on_event] of the ICP odometry operator: the new state, the
    outputs sent, the returned status; [None] when an exception escapes. *)
Definition icp_on_event (preprocess : list V3 -> list V3)
    (registration_icp : list V3 -> list V3 -> IcpResult)
    (st : OpState) (ev : DoraEvent)
    : option (OpState * list Output * DoraStatus) :=
  match ev with
  | Input id value =>
      if String.eqb id "pointcloud"%string then
        match value with
        | [] => Some (st, [], CONTINUE)
        | _ :: _ =>
            match reshape3 value with
            | None => None
            | Some points =>
                let '(st', (pose, fit, rmse)) :=
                  register_frame preprocess registration_icp st points in
                Some (st',
                      [("pose"%string, flatten4 pose);
                       ("odometry_status"%string,
                        [INR (op_frame_count st') - 1; fit; rmse])],
                      CONTINUE)
            end
        end
      else Some (st, [], CONTINUE)
  | StopEvent => Some (st, [], STOP)
  | OtherEvent => Some (st, [], CONTINUE)
  end.

(* ------------------------------------------------------------------ *)
(** ** Waypoint extraction (waypoint_extractor.py, waypoint_extractor_op.py) *)

Record V2 := mkV2 { px : R; py : R }.

Definition v2add (a b : V2) : V2 := mkV2 (px a + px b) (py a + py b).
Definition v2sub (a b : V2) : V2 := mkV2 (px a - px b) (py a - py b).
Definition v2scale (k : R) (a : V2) : V2 := mkV2 (k * px a) (k * py a).
Definition dot2 (a b : V2) : R := px a * px b + py a * py b.
(** [np.linalg.norm] of a 2-vector. *)
Definition norm2 (a : V2) : R := sqrt (dot2 a a).
Definition zero2 : V2 := mkV2 0 0.

(** [p[:2]] *)
Definition xy (p : V3) : V2 := mkV2 (vx p) (vy p).

(** The minimum-spacing loop shared by [_filter_by_distance] (on 3D
    positions, comparing [pos[:2]]) and [_extract_waypoints] (on 2D
    points): [last] is [filtered[-1]]; returns the points appended after it.
<<
    for pos in positions[1:]:
        dist = np.linalg.norm(pos[:2] - filtered[-1][:2])
        if dist >= self.min_distance:
            filtered.append(pos)
>> *)
Fixpoint spacing_from {A} (proj : A -> V2) (min_d : R) (last : A) (l : list A)
    : list A :=
  match l with
  | [] => []
  | p :: t =>
      if Rle_dec min_d (norm2 (v2sub (proj p) (proj last)))
      then p :: spacing_from proj min_d p t
      else spacing_from proj min_d last t
  end.

(** [WaypointExtractor._filter_by_distance] *)
Definition filter_by_distance (min_distance : R) (positions : list V3) : list V3 :=
  match positions with
  | [] => []
  | p0 :: rest => p0 :: spacing_from xy min_distance p0 rest
  end.

(** Insertion into a list sorted by [Rle] (for [np.median]). *)
Fixpoint insertR (x : R) (l : list R) : list R :=
  match l with
  | [] => [x]
  | y :: t => if Rle_dec x y then x :: y :: t else y :: insertR x t
  end.

Fixpoint sortR (l : list R) : list R :=
  match l with
  | [] => []
  | x :: t => insertR x (sortR t)
  end.

(** [np.median] of a non-empty list. *)
Definition median (l : list R) : R :=
  let s := sortR l in
  let n := length s in
  if Nat.even n
  then (nth (n / 2 - 1) s 0 + nth (n / 2) s 0) / 2
  else nth (n / 2) s 0.

(** [WaypointExtractor._filter_by_z] *)
Definition filter_by_z (z_threshold : R) (positions : list V3) : list V3 :=
  match positions with
  | [] => []
  | _ :: _ =>
      let z_ref := median (map vz positions) in
      filter (fun p => if Rlt_dec (Rabs (vz p - z_ref)) z_threshold then true else false)
        positions
  end.

(** [max(distances)] of a non-empty list. *)
Definition list_max (l : list R) : R :=
  match l with
  | [] => 0
  | x :: t => fold_left Rmax t x
  end.

(** [distances.index(m)] *)
Fixpoint index_of (m : R) (l : list R) : nat :=
  match l with
  | [] => O
  | x :: t => if Req_EM_T x m then O else S (index_of m t)
  end.

(** Distance of [p] from the line through [start] with direction
    [line_unit] (loop body of [_douglas_peucker]). *)
Definition dp_distance (start line_unit p : V2) : R :=
  let v := v2sub p start in
  let proj_len := dot2 v line_unit in
  let proj := v2add start (v2scale proj_len line_unit) in
  norm2 (v2sub p proj).

(** Chord data of a point list: [start], [end], [line_len], [line_unit]. *)
Definition dp_start (points : list V2) : V2 := nth 0 points zero2.
Definition dp_end (points : list V2) : V2 := last points zero2.
Definition dp_line_len (points : list V2) : R :=
  norm2 (v2sub (dp_end points) (dp_start points)).
Definition dp_line_unit (points : list V2) : V2 :=
  v2scale (/ dp_line_len points) (v2sub (dp_end points) (dp_start points)).


(** [WaypointExtractor._douglas_peucker]: the indices of the kept points.
    [fuel] bounds the recursion depth; [None] stands for the recursion not
    terminating (Python's [RecursionError]).  With [fuel >= len(points)]
    and a non-negative tolerance the fuel never runs out
    ([douglas_peucker_ok] below). *)
Fixpoint douglas_peucker (fuel : nat) (points : list V2) (tolerance : R)
    : option (list nat) :=
  match fuel with
  | O => None
  | S fuel' =>
      let n := length points in
      if (n <? 3)%nat then Some (seq 0 n) else
      let line_len := dp_line_len points in
      if Rlt_dec line_len 1e-6 then Some [O; (n - 1)%nat] else
      let distances :=
        map (dp_distance (dp_start points) (dp_line_unit points)) points in
      let max_dist := list_max distances in
      let max_idx := index_of max_dist distances in
      if Rlt_dec tolerance max_dist then
        match douglas_peucker fuel' (firstn (max_idx + 1) points) tolerance,
              douglas_peucker fuel' (skipn max_idx points) tolerance with
        | Some left_, Some right_ =>
            Some (removelast left_ ++ map (fun i => (i + max_idx)%nat) right_)
        | _, _ => None
        end
      else Some [O; (n - 1)%nat]
  end.

Definition dp_indices (points : list V2) (tolerance : R) : option (list nat) :=
  douglas_peucker (S (length points)) points tolerance.

(** [WaypointExtractor._simplify_trajectory] *)
Definition simplify_trajectory (tolerance : R) (positions : list V3)
    : option (list V3) :=
  if (length positions <? 3)%nat then Some positions else
  option_map (map (fun i => nth i positions zero3))
    (dp_indices (map xy positions) tolerance).

(** The configuration of a [WaypointExtractor]. *)
Record ExtractorConfig := mkExtractorConfig {
  min_distance : R;                 (* default 0.5 *)
  simplify : bool;                  (* default True *)
  simplify_tolerance : R;           (* default 0.1 *)
  z_threshold : option R            (* default None *)
}.

Definition default_extractor_config : ExtractorConfig :=
  mkExtractorConfig 0.5 true 0.1 None.

(** A pose dictionary [Dict[int, np.ndarray]] as an association list. *)
Definition PoseDict := list (Z * Mat4).

(** [poses[k]] *)
Fixpoint dict_lookup (k : Z) (d : PoseDict) : option Mat4 :=
  match d with
  | [] => None
  | (k', v) :: t => if Z.eqb k k' then Some v else dict_lookup k t
  end.

Definition dict_get (d : PoseDict) (k : Z) : Mat4 :=
  match dict_lookup k d with Some v => v | None => eye4 end.

(** [sorted(poses.keys())] (insertion sort). *)
Fixpoint insertZ (x : Z) (l : list Z) : list Z :=
  match l with
  | [] => [x]
  | y :: t => if Z.leb x y then x :: y :: t else y :: insertZ x t
  end.

Fixpoint sortZ (l : list Z) : list Z :=
  match l with
  | [] => []
  | x :: t => insertZ x (sortZ t)
  end.

Definition sorted_ids (d : PoseDict) : list Z := sortZ (map fst d).

(** [WaypointExtractor.extract]; [None] when an exception escapes. *)
Definition extract (cfg : ExtractorConfig) (poses : PoseDict) : option (list V2) :=
  match poses with
  | [] => Some []
  | _ :: _ =>
      let positions := map (fun i => trans (dict_get poses i)) (sorted_ids poses) in
      let waypoints_3d := filter_by_distance (min_distance cfg) positions in
      let waypoints_3d :=
        match z_threshold cfg with
        | Some t => filter_by_z t waypoints_3d
        | None => waypoints_3d
        end in
      let waypoints_3d :=
        if simplify cfg
        then simplify_trajectory (simplify_tolerance cfg) waypoints_3d
        else Some waypoints_3d in
      option_map (map xy) waypoints_3d
  end.

(** Interior scan of [Operator._douglas_peucker]: [(max_dist, max_idx)]
    over the indices [i] of [pts] (the interior points, [i] from 1). *)
Fixpoint op_dp_scan (start line_unit : V2) (i : nat) (pts : list V2)
    (acc : R * nat) : R * nat :=
  match pts with
  | [] => acc
  | p :: t =>
      let dist := dp_distance start line_unit p in
      let acc' := if Rlt_dec (fst acc) dist then (dist, i) else acc in
      op_dp_scan start line_unit (S i) t acc'
  end.

(** [Operator._douglas_peucker] of the dataflow operator (on points). *)
Fixpoint op_douglas_peucker (fuel : nat) (points : list V2) (epsilon : R)
    : option (list V2) :=
  match fuel with
  | O => None
  | S fuel' =>
      let n := length points in
      if (n <=? 2)%nat then Some points else
      let start := dp_start points in
      let end_ := dp_end points in
      if Rlt_dec (dp_line_len points) 1e-6 then Some [start; end_] else
      let interior := firstn (n - 2) (skipn 1 points) in
      let '(max_dist, max_idx) :=
        op_dp_scan start (dp_line_unit points) 1 interior (0, O) in
      if Rlt_dec epsilon max_dist then
        match op_douglas_peucker fuel' (firstn (max_idx + 1) points) epsilon,
              op_douglas_peucker fuel' (skipn max_idx points) epsilon with
        | Some left_, Some right_ => Some (removelast left_ ++ right_)
        | _, _ => None
        end
      else Some [start; end_]
  end.

(** [Operator._extract_waypoints] of the dataflow operator; [poses] in the
    order received. *)
Definition op_extract_waypoints (min_spacing : R) (simplify_on : bool)
    (epsilon : R) (poses : list Mat4) : option (list V2) :=
  match poses with
  | [] => Some []
  | _ :: _ =>
      let trajectory := map (fun p => xy (trans p)) poses in
      if simplify_on
      then op_douglas_peucker (length trajectory) trajectory epsilon
      else
        let t0 := nth 0 trajectory zero2 in
        let waypoints := t0 :: spacing_from (fun p => p) min_spacing t0 (tl trajectory) in
        let last_dist := norm2 (v2sub (last trajectory zero2) (last waypoints zero2)) in
        if Rlt_dec 0.1 last_dist
        then Some (waypoints ++ [last trajectory zero2])
        else Some waypoints
  end.

(** A relation holding between every two consecutive elements of a list. *)
Inductive Chain {A} (rel : A -> A -> Prop) : list A -> Prop :=
  | chain_nil : Chain rel []
  | chain_one x : Chain rel [x]
  | chain_cons x y l : rel x y -> Chain rel (y :: l) -> Chain rel (x :: y :: l).

(** Consecutive points at least [s] apart. *)
Definition spaced (s : R) (l : list V2) : Prop :=
  Chain (fun a b => s <= norm2 (v2sub b a)) l.

(** Consecutive points distinct. *)
Definition adjacent_distinct (l : list V2) : Prop := Chain (fun a b => b <> a) l.

(** ** Loop candidates ([LoopDetector.detect_candidates]) *)

(** [positions[k] = poses[k][:3, 3]] *)
Definition position (poses : PoseDict) (k : Z) : V3 := trans (dict_get poses k).

(** The inner test of [detect_candidates] for the pair [(id_i, id_j)]. *)
Definition candidate_test (distance_threshold : R) (min_frame_gap : Z)
    (poses : PoseDict) (id_i id_j : Z) : list (Z * Z) :=
  if Z.ltb (id_j - id_i) min_frame_gap then [] else
  let dist := norm3 (vsub (position poses id_i) (position poses id_j)) in
  if Rlt_dec dist distance_threshold then [(id_i, id_j)] else [].

(** [LoopDetector.detect_candidates]: both loops run over all sorted ids. *)
Definition detect_candidates (distance_threshold : R) (min_frame_gap : Z)
    (poses : PoseDict) : list (Z * Z) :=
  let pose_ids := sorted_ids poses in
  flat_map (fun id_i =>
    flat_map (fun id_j => candidate_test distance_threshold min_frame_gap poses id_i id_j)
      pose_ids) pose_ids.

(** Defaults of [LoopDetector.__init__]. *)
Definition default_distance_threshold : R := 5.0.
Definition default_min_frame_gap : Z := 50.

(** ** Pose graph ([PoseGraphOptimizer]) *)

(** GTSAM is left abstract: the [Pose3] type, [matrix_to_pose3],
    [np.linalg.inv] and the Levenberg-Marquardt [optimize] step are Section
    variables; the factor graph, the initial estimates, the tracked id set
    and the counters are modelled as the code keeps them. *)
Section PoseGraph.

Variable Pose3 : Type.
Variable matrix_to_pose3 : Mat4 -> Pose3.
Variable linalg_inv : Mat4 -> Mat4.

(** The two factor kinds the optimizer adds. *)
Inductive Factor :=
  | PriorFactorPose3 (pose_id : Z) (pose : Pose3)
  | BetweenFactorPose3 (id_from id_to : Z) (relative : Pose3).

Record PGState := mkPGState {
  graph : list Factor;                      (* gtsam.NonlinearFactorGraph *)
  initial_estimates : list (Z * Pose3);     (* gtsam.Values *)
  pose_ids : list Z;                        (* set(), in insertion order *)
  n_odom_factors : nat;
  n_loop_factors : nat
}.

(** State right after [__init__]. *)
Definition pg_init : PGState := mkPGState [] [] [] 0 0.

Variable optimize : PGState -> list (Z * Mat4).

Definition add_prior (pose_id : Z) (pose : Mat4) (st : PGState) : PGState :=
  mkPGState (graph st ++ [PriorFactorPose3 pose_id (matrix_to_pose3 pose)])
    (initial_estimates st) (pose_ids st) (n_odom_factors st) (n_loop_factors st).

Definition add_initial_estimate (pose_id : Z) (pose : Mat4) (st : PGState) : PGState :=
  if existsb (Z.eqb pose_id) (pose_ids st) then st else
  mkPGState (graph st) (initial_estimates st ++ [(pose_id, matrix_to_pose3 pose)])
    (pose_ids st ++ [pose_id]) (n_odom_factors st) (n_loop_factors st).

Definition add_odometry_factor (id_from id_to : Z) (relative_pose : Mat4)
    (st : PGState) : PGState :=
  mkPGState
    (graph st ++ [BetweenFactorPose3 id_from id_to (matrix_to_pose3 relative_pose)])
    (initial_estimates st) (pose_ids st) (S (n_odom_factors st)) (n_loop_factors st).

(** One iteration [i] of the odometry chain loop. *)
Definition chain_step (odom_poses : list Mat4) (st : PGState) (i : nat) : PGState :=
  let T_prev := nth (i - 1) odom_poses eye4 in
  let T_curr := nth i odom_poses eye4 in
  let T_rel := matmul4 (linalg_inv T_prev) T_curr in
  add_initial_estimate (Z.of_nat i) T_curr
    (add_odometry_factor (Z.of_nat (i - 1)) (Z.of_nat i) T_rel st).

(** [PoseGraphOptimizer.build_from_odometry]: the new state and the
    returned dictionary. *)
Definition build_from_odometry (odom_poses : list Mat4) (st : PGState)
    : PGState * list (Z * Mat4) :=
  let n_poses := length odom_poses in
  match odom_poses with
  | [] => (st, [])
  | P0 :: _ =>
      let st := add_initial_estimate 0 P0 (add_prior 0 P0 st) in
      let st := fold_left (chain_step odom_poses) (seq 1 (n_poses - 1)) st in
      (st, optimize st)
  end.

End PoseGraph.

Arguments graph {Pose3}.
Arguments initial_estimates {Pose3}.
Arguments pose_ids {Pose3}.
Arguments n_odom_factors {Pose3}.
Arguments n_loop_factors {Pose3}.

(** ** Scan Context ([ScanContextDetector]) *)

Record ScanContextConfig := mkScanContextConfig {
  num_sectors : Z;            (* default 60 *)
  num_rings : Z;              (* default 20 *)
  max_range : R;              (* default 80.0 *)
  similarity_threshold : R    (* default 0.1 *)
}.

Definition default_scan_context_config : ScanContextConfig :=
  mkScanContextConfig 60 20 80.0 0.1.

(** [np.arctan2] (signed zeros aside). *)
Definition arctan2 (y x : R) : R :=
  if Rlt_dec 0 x then atan (y / x)
  else if Rlt_dec x 0 then
    (if Rle_dec 0 y then atan (y / x) + PI else atan (y / x) - PI)
  else if Rlt_dec 0 y then PI / 2
  else if Rlt_dec y 0 then - (PI / 2)
  else 0.

(** [.astype(int)]: truncation towards zero. *)
Definition astype_int (r : R) : Z :=
  if Rle_dec 0 r then Int_part r else (- Int_part (- r))%Z.

(** [np.clip(x, lo, hi)] *)
Definition np_clip (x lo hi : Z) : Z := Z.min (Z.max x lo) hi.

Definition range_idx (cfg : ScanContextConfig) (p : V3) : Z :=
  let ranges := sqrt (vx p * vx p + vy p * vy p) in
  np_clip (astype_int (ranges / max_range cfg * IZR (num_rings cfg)))
    0 (num_rings cfg - 1).

Definition angle_idx (cfg : ScanContextConfig) (p : V3) : Z :=
  let angles := arctan2 (vy p) (vx p) in
  np_clip (astype_int ((angles + PI) / (2 * PI) * IZR (num_sectors cfg)))
    0 (num_sectors cfg - 1).

(** A [num_rings x num_sectors] array, read at [(r, a)]. *)
Definition Descriptor := Z -> Z -> R.

Definition np_zeros : Descriptor := fun _ _ => 0.

(** [descriptor[r, a] = v] *)
Definition desc_set (d : Descriptor) (r a : Z) (v : R) : Descriptor :=
  fun r' a' => if (Z.eqb r' r && Z.eqb a' a)%bool then v else d r' a'.

(** [ScanContextDetector.compute_descriptor] *)
Definition compute_descriptor (cfg : ScanContextConfig) (points : list V3) : Descriptor :=
  fold_left (fun descriptor p =>
    let r := range_idx cfg p in
    let a := angle_idx cfg p in
    desc_set descriptor r a (Rmax (descriptor r a) (vz p)))
    points np_zeros.

(** The points falling in bin [(r, a)]. *)
Definition in_bin (cfg : ScanContextConfig) (r a : Z) (p : V3) : bool :=
  (Z.eqb (range_idx cfg p) r && Z.eqb (angle_idx cfg p) a)%bool.

(** The indices [0 .. n-1] of an axis of length [n]. *)
Definition axis_ids (n : Z) : list Z := map Z.of_nat (seq 0 (Z.to_nat n)).

(** All cells of a [nr x ns] array in row-major order. *)
Definition cells (nr ns : Z) : list (Z * Z) :=
  flat_map (fun r => map (fun a => (r, a)) (axis_ids ns)) (axis_ids nr).

(** [np.sum] of an [nr x ns] array. *)
Definition np_sum (nr ns : Z) (f : Descriptor) : R :=
  fold_right (fun c acc => f (fst c) (snd c) + acc) 0 (cells nr ns).

(** [np.linalg.norm] of a matrix (Frobenius). *)
Definition fro_norm (nr ns : Z) (d : Descriptor) : R :=
  sqrt (np_sum nr ns (fun r a => d r a * d r a)).

(** [np.roll(d, shift, axis=1)] on [ns] columns. *)
Definition np_roll (ns : Z) (d : Descriptor) (shift : Z) : Descriptor :=
  fun r a => d r (Z.modulo (a - shift) ns).

(** [np.sum(desc1 * shifted) / (norm1 * norm2)] *)
Definition cosine (nr ns : Z) (d e : Descriptor) : R :=
  np_sum nr ns (fun r a => d r a * e r a) / (fro_norm nr ns d * fro_norm nr ns e).

(** [ScanContextDetector._compute_similarity] *)
Definition compute_similarity (cfg : ScanContextConfig) (desc1 desc2 : Descriptor) : R :=
  let nr := num_rings cfg in
  let ns := num_sectors cfg in
  fold_left (fun best_sim shift =>
    let shifted := np_roll ns desc2 (Z.of_nat shift) in
    let norm_1 := fro_norm nr ns desc1 in
    let norm_2 := fro_norm nr ns shifted in
    if Rlt_dec 0 norm_1 then
      if Rlt_dec 0 norm_2 then Rmax best_sim (cosine nr ns desc1 shifted)
      else best_sim
    else best_sim)
    (seq 0 (Z.to_nat ns)) 0.

(* ------------------------------------------------------------------ *)
(** ** Further code of the same files *)

(** States of the ICP odometry operator reachable from [__init__] by a
    sequence of [on_event] calls that return normally. *)
Inductive icp_reachable (preprocess : list V3 -> list V3)
    (registration_icp : list V3 -> list V3 -> IcpResult) : OpState -> Prop :=
  | icp_reach_init : icp_reachable preprocess registration_icp op_init
  | icp_reach_step st ev st' outs status :
      icp_reachable preprocess registration_icp st ->
      icp_on_event preprocess registration_icp st ev = Some (st', outs, status) ->
      icp_reachable preprocess registration_icp st'.

(** Sum of the distances between consecutive points (the summation order of
    the source loop is immaterial over [R]). *)
Fixpoint path_length2 (l : list V2) : R :=
  match l with
  | a :: ((b :: _) as t) => norm2 (v2sub b a) + path_length2 t
  | _ => 0
  end.

Fixpoint path_length3 (l : list V3) : R :=
  match l with
  | a :: ((b :: _) as t) => norm3 (vsub b a) + path_length3 t
  | _ => 0
  end.

(** The dictionary returned by [WaypointExtractor.compute_statistics]. *)
Inductive WaypointStats :=
  | StatsEmpty                                   (* {'n_waypoints': 0} *)
  | Stats (n_waypoints : nat) (total_length avg_spacing : R)
          (bounds_min bounds_max : V2).

(** [WaypointExtractor.compute_statistics] *)
Definition compute_statistics (waypoints : list V2) : WaypointStats :=
  match waypoints with
  | [] => StatsEmpty
  | w0 :: rest =>
      let n := length waypoints in
      let total_length := path_length2 waypoints in
      let avg_spacing := if (1 <? n)%nat then total_length / INR (n - 1) else 0 in
      Stats n total_length avg_spacing
        (mkV2 (fold_left Rmin (map px rest) (px w0)) (fold_left Rmin (map py rest) (py w0)))
        (mkV2 (fold_left Rmax (map px rest) (px w0)) (fold_left Rmax (map py rest) (py w0)))
  end.

(** [pose_graph.compute_trajectory_length] *)
Definition compute_trajectory_length (poses : PoseDict) : R :=
  path_length3 (map (fun k => trans (dict_get poses k)) (sorted_ids poses)).

(** [d[k]] for a dictionary as an association list; [None] for a missing key. *)
Fixpoint assoc_lookup {A} (k : Z) (d : list (Z * A)) : option A :=
  match d with
  | [] => None
  | (k', v) :: t => if Z.eqb k k' then Some v else assoc_lookup k t
  end.

(** [d[k] = v]: an existing key keeps its place, a new key goes last. *)
Fixpoint assoc_set {A} (d : list (Z * A)) (k : Z) (v : A) : list (Z * A) :=
  match d with
  | [] => [(k, v)]
  | (k', v') :: t => if Z.eqb k k' then (k', v) :: t else (k', v') :: assoc_set t k v
  end.

(** Loop verification: Open3D point-to-point ICP (with its voxel
    downsampling) and [np.linalg.inv] are Section variables. *)
Section LoopVerification.

Variable icp_point_to_point : list V3 -> list V3 -> Mat4 -> IcpResult.
Variable linalg_inv : Mat4 -> Mat4.

(** [LoopDetector.verify_loop]: [(success, transformation, fitness)]. *)
Definition verify_loop (icp_fitness_threshold : R) (cloud_i cloud_j : list V3)
    (initial_guess : Mat4) : bool * Mat4 * R :=
  let result := icp_point_to_point cloud_i cloud_j initial_guess in
  (if Rlt_dec icp_fitness_threshold (fitness result) then true else false,
   transformation result, fitness result).

(** [LoopDetector.detect_and_verify] *)
Definition detect_and_verify (distance_threshold : R) (min_frame_gap : Z)
    (icp_fitness_threshold : R) (poses : PoseDict)
    (point_clouds : list (Z * list V3)) : list (Z * Z * Mat4) :=
  flat_map (fun c =>
    let '(id_i, id_j) := c in
    match assoc_lookup id_i point_clouds, assoc_lookup id_j point_clouds with
    | Some cloud_i, Some cloud_j =>
        let initial_guess := matmul4 (linalg_inv (dict_get poses id_i)) (dict_get poses id_j) in
        let '(success, transform, _) :=
          verify_loop icp_fitness_threshold cloud_i cloud_j initial_guess in
        if success then [(id_i, id_j, transform)] else []
    | _, _ => []
    end)
    (detect_candidates distance_threshold min_frame_gap poses).

End LoopVerification.

(** [self.descriptors] of a [ScanContextDetector]. *)
Definition DescriptorDB := list (Z * Descriptor).

(** [ScanContextDetector.add_frame] *)
Definition add_frame (cfg : ScanContextConfig) (db : DescriptorDB) (frame_id : Z)
    (points : list V3) : DescriptorDB :=
  assoc_set db frame_id (compute_descriptor cfg points).

(** Insertion for [sorted(matches, key=lambda x: -x[1])]: [m] goes before
    the first element of strictly smaller similarity (stable). *)
Fixpoint insert_by_similarity (m : Z * R) (l : list (Z * R)) : list (Z * R) :=
  match l with
  | [] => [m]
  | y :: t => if Rlt_dec (snd y) (snd m) then m :: y :: t else y :: insert_by_similarity m t
  end.

Definition sort_by_similarity (l : list (Z * R)) : list (Z * R) :=
  fold_left (fun acc m => insert_by_similarity m acc) l [].

(** The matches of [find_matches] before sorting, in dictionary order. *)
Definition scan_matches (cfg : ScanContextConfig) (query_desc : Descriptor)
    (query_id min_gap : Z) (db : DescriptorDB) : list (Z * R) :=
  flat_map (fun e =>
    let '(frame_id, desc) := e in
    if Z.ltb (Z.abs (frame_id - query_id)) min_gap then [] else
    let similarity := compute_similarity cfg query_desc desc in
    if Rlt_dec (similarity_threshold cfg) similarity then [(frame_id, similarity)] else [])
    db.

(** [ScanContextDetector.find_matches] *)
Definition find_matches (cfg : ScanContextConfig) (db : DescriptorDB)
    (query_id min_gap : Z) : list (Z * R) :=
  match assoc_lookup query_id db with
  | None => []
  | Some query_desc => sort_by_similarity (scan_matches cfg query_desc query_id min_gap db)
  end.

(** The remaining [PoseGraphOptimizer] operations. *)
Section PoseGraphOps.

Variable Pose3 : Type.
Variable matrix_to_pose3 : Mat4 -> Pose3.

Definition add_loop_closure (id_from id_to : Z) (relative_pose : Mat4)
    (st : PGState Pose3) : PGState Pose3 :=
  mkPGState Pose3
    (graph st ++ [BetweenFactorPose3 Pose3 id_from id_to (matrix_to_pose3 relative_pose)])
    (initial_estimates st) (pose_ids st) (n_odom_factors st) (S (n_loop_factors st)).

(** A call on the optimizer. *)
Inductive PGCall :=
  | CallAddPrior (pose_id : Z) (pose : Mat4)
  | CallAddInitialEstimate (pose_id : Z) (pose : Mat4)
  | CallAddOdometryFactor (id_from id_to : Z) (relative_pose : Mat4)
  | CallAddLoopClosure (id_from id_to : Z) (relative_pose : Mat4).

Definition pg_call (st : PGState Pose3) (c : PGCall) : PGState Pose3 :=
  match c with
  | CallAddPrior k P => add_prior Pose3 matrix_to_pose3 k P st
  | CallAddInitialEstimate k P => add_initial_estimate Pose3 matrix_to_pose3 k P st
  | CallAddOdometryFactor i j T => add_odometry_factor Pose3 matrix_to_pose3 i j T st
  | CallAddLoopClosure i j T => add_loop_closure i j T st
  end.

Definition pg_run (st : PGState Pose3) (calls : list PGCall) : PGState Pose3 :=
  fold_left pg_call calls st.

End PoseGraphOps.

(** [PoseGraphOptimizer.get_statistics] *)
Record PGStatistics := mkPGStatistics {
  stat_n_poses : nat;
  stat_n_odom_factors : nat;
  stat_n_loop_factors : nat;
  stat_n_total_factors : nat
}.

Definition get_statistics {Pose3} (st : PGState Pose3) : PGStatistics :=
  mkPGStatistics (length (pose_ids st)) (n_odom_factors st) (n_loop_factors st)
    (length (graph st)).

Definition is_prior {Pose3} (f : Factor Pose3) : bool :=
  match f with PriorFactorPose3 _ _ _ => true | _ => false end.

(** State of the waypoint extractor [Operator]: [self.poses] and
    [self.waypoints_extracted]. *)
Record WpState := mkWpState {
  wp_poses : list Mat4;
  wp_extracted : bool
}.

Definition wp_init : WpState := mkWpState [] false.

(** [pose_flat.reshape(4, 4)] on 16 values; only the top three rows are
    kept (the operator never reads the bottom row). *)
Definition unflatten4 (l : list R) : Mat4 :=
  match l with
  | [a; b; c; d; e; f; g; h; i; j; k; l'; _; _; _; _] =>
      mkMat4 (mkM3 (mkV3 a b c) (mkV3 e f g) (mkV3 i j k)) (mkV3 d h l')
  | _ => eye4
  end.

(** [np.array(points).flatten()] of 2D points. *)
Definition flatten2 (l : list V2) : list R := flat_map (fun p => [px p; py p]) l.

(** [trajectory = np.array([[p[0, 3], p[1, 3]] for p in self.poses])] *)
Definition wp_trajectory (poses : list Mat4) : list V2 := map (fun p => xy (trans p)) poses.

(** [Operator.on_event] of the waypoint extractor, with its configuration
    [min_spacing], [simplify], [epsilon]; file writing is not modelled.
    [None] when an exception escapes. *)
Definition wp_on_event (min_spacing : R) (simplify_on : bool) (epsilon : R)
    (st : WpState) (ev : DoraEvent) : option (WpState * list Output * DoraStatus) :=
  match ev with
  | Input id value =>
      if String.eqb id "pose"%string then
        if (length value =? 16)%nat
        then Some (mkWpState (wp_poses st ++ [unflatten4 value]) (wp_extracted st), [], CONTINUE)
        else Some (st, [], CONTINUE)
      else if String.eqb id "map_complete"%string then
        if (negb (wp_extracted st) && (0 <? length (wp_poses st))%nat)%bool then
          match op_extract_waypoints min_spacing simplify_on epsilon (wp_poses st) with
          | None => None
          | Some waypoints =>
              Some (mkWpState (wp_poses st) true,
                    [("waypoints"%string, flatten2 waypoints);
                     ("trajectory"%string, flatten2 (wp_trajectory (wp_poses st)))],
                    CONTINUE)
          end
        else Some (st, [], CONTINUE)
      else Some (st, [], CONTINUE)
  | StopEvent =>
      if (negb (wp_extracted st) && (0 <? length (wp_poses st))%nat)%bool then
        match op_extract_waypoints min_spacing simplify_on epsilon (wp_poses st) with
        | None => None
        | Some _ => Some (st, [], STOP)
        end
      else Some (st, [], STOP)
  | OtherEvent => Some (st, [], CONTINUE)
  end.

(** A run of the waypoint operator on a sequence of events: the final state
    and all outputs sent, in order; [None] when a call raises. *)
Fixpoint wp_run (min_spacing : R) (simplify_on : bool) (epsilon : R)
    (st : WpState) (evs : list DoraEvent) : option (WpState * list Output) :=
  match evs with
  | [] => Some (st, [])
  | ev :: evs' =>
      match wp_on_event min_spacing simplify_on epsilon st ev with
      | None => None
      | Some (st', outs, _) =>
          match wp_run min_spacing simplify_on epsilon st' evs' with
          | None => None
          | Some (st'', outs') => Some (st'', outs ++ outs')
          end
      end
  end.

(** The bookkeeping of reachable ICP operator states. *)
Definition icp_inv (st : OpState) : Prop :=
  length (op_world st) = op_frame_count st /\
  length (op_older st) = (op_frame_count st - 1)%nat /\
  (op_frame_count st = O -> op_prev st = eye4 /\ op_older st = []).

(* ================================================================== *)
(** * Properties *)

Ltac mat_eq :=
  repeat match goal with
         | M : Mat4 |- _ => destruct M
         | M : M3 |- _ => destruct M
         | v : V3 |- _ => destruct v
         end;
  unfold matmul4, translate, mm, mv, col0, col1, col2, dot3, vadd, vsub, I3,
    eye4, zero3, Rz90 in *; simpl;
  repeat f_equal; ring.

(** Left composition with a translation keeps the rotation and adds the
    vector to the translation. *)
Lemma matmul4_translate_l (v : V3) (P : Mat4) :
  matmul4 (translate v) P = mkMat4 (rot P) (vadd (trans P) v).
Proof. mat_eq. Qed.

Lemma norm3_x_axis (a : R) : 0 <= a -> norm3 (mkV3 a 0 0) = a.
Proof.
  intros Ha. unfold norm3, dot3; simpl.
  replace (a * a + 0 * 0 + 0 * 0) with (a * a) by ring.
  apply sqrt_square; exact Ha.
Qed.

(** ** ICP odometry: rejection and motion-model fallback *)

Lemma icp_iteration_reject prev older T_c fit :
  expected_motion * 3 < norm3 (vsub (trans (matmul4 T_c prev)) (trans prev)) ->
  icp_iteration prev older T_c fit = (motion_fallback prev (hd_error older), 0).
Proof.
  intros H. unfold icp_iteration.
  destruct (Rlt_dec _ _); [reflexivity | contradiction].
Qed.

Lemma icp_iteration_accept prev older T_c fit :
  norm3 (vsub (trans (matmul4 T_c prev)) (trans prev)) <= expected_motion * 3 ->
  icp_iteration prev older T_c fit = (matmul4 T_c prev, fit).
Proof.
  intros H. unfold icp_iteration.
  destruct (Rlt_dec _ _) as [H'|H']; [lra | reflexivity].
Qed.

Lemma op_validate_eq prev older T_c fit :
  op_validate prev older T_c fit = icp_iteration prev older T_c fit.
Proof.
  unfold op_validate, icp_iteration, expected_motion.
  replace (0.25 * 3) with 0.75 by lra. reflexivity.
Qed.

(** The motion-model pose is [translate(velocity) @ poses[-1]]. *)
Lemma motion_fallback_translate prev p2 :
  motion_fallback prev (Some p2) =
  matmul4 (translate (vsub (trans prev) (trans p2))) prev.
Proof. rewrite matmul4_translate_l. reflexivity. Qed.

(** C1 (amended).  In both ICP odometry paths ([run_on_sequence] and the
    dataflow operator's [_register_frame]), with candidate
    [T_c @ pose_{i-1}]: if its translation jump exceeds [3 * 0.25 = 0.75] the
    candidate is rejected, the reported fitness is 0 and the pose is
    [translate(t_{i-1} - t_{i-2}) @ pose_{i-1}] (rotation of [pose_{i-1}],
    translation [t_{i-1} + (t_{i-1} - t_{i-2})]) when two poses exist, else
    [pose_{i-1}]; otherwise the candidate and the ICP fitness are kept. *)
Theorem icp_fallback_translate_left (prev : Mat4) (older : list Mat4)
    (T_c : Mat4) (fit : R) :
  let cand := matmul4 T_c prev in
  let delta_pos := norm3 (vsub (trans cand) (trans prev)) in
  let fallback :=
    match older with
    | p2 :: _ => matmul4 (translate (vsub (trans prev) (trans p2))) prev
    | [] => prev
    end in
  (delta_pos > 3 * expected_motion ->
     icp_iteration prev older T_c fit = (fallback, 0) /\
     op_validate prev older T_c fit = (fallback, 0) /\
     rot fallback = rot prev) /\
  (delta_pos <= 3 * expected_motion ->
     icp_iteration prev older T_c fit = (cand, fit) /\
     op_validate prev older T_c fit = (cand, fit)).
Proof.
  intros cand delta_pos fallback. split; intros H.
  - assert (E : icp_iteration prev older T_c fit = (fallback, 0)).
    { rewrite icp_iteration_reject by (unfold delta_pos, cand in H; lra).
      unfold fallback; destruct older as [|p2 older']; cbn [hd_error]; [reflexivity|].
      rewrite motion_fallback_translate. reflexivity. }
    split; [exact E|]. split; [rewrite op_validate_eq; exact E|].
    unfold fallback; destruct older; [reflexivity|].
    rewrite matmul4_translate_l. reflexivity.
  - assert (E : icp_iteration prev older T_c fit = (cand, fit)).
    { apply icp_iteration_accept. unfold delta_pos, cand in H; lra. }
    split; [exact E | rewrite op_validate_eq; exact E].
Qed.

(** C1 counterexample.  After an accepted frame 1 with pose
    [(Rz90, (0.5, 0, 0))], an ICP correction of 10 m along +X at frame 2 is
    rejected, and the fallback pose has translation [(1, 0, 0)], not the
    translation [(0.5, 0.5, 0)] of [pose_1 @ translate(t_1 - t_0)]. *)
Lemma icp_fallback_not_right_translate :
  let pose0 := eye4 in
  let pose1 := mkMat4 Rz90 (mkV3 0.5 0 0) in
  let T_c := translate (mkV3 10 0 0) in
  (* frame 1 was accepted: its jump from pose0 is 0.5 m *)
  icp_iteration pose0 [] pose1 1 = (pose1, 1) /\
  (* frame 2 is rejected: jump of 10 m *)
  norm3 (vsub (trans (matmul4 T_c pose1)) (trans pose1)) > 3 * expected_motion /\
  fst (icp_iteration pose1 [pose0] T_c 1) <>
  matmul4 pose1 (translate (vsub (trans pose1) (trans pose0))).
Proof.
  intros pose0 pose1 T_c.
  assert (J1 : norm3 (vsub (trans (matmul4 pose1 pose0)) (trans pose0)) = 0.5).
  { unfold pose0, pose1, eye4, zero3. rewrite <- norm3_x_axis by lra.
    f_equal. unfold matmul4, mv, vsub, vadd, dot3, I3, Rz90; simpl. f_equal; ring. }
  assert (J2 : norm3 (vsub (trans (matmul4 T_c pose1)) (trans pose1)) = 10).
  { rewrite <- norm3_x_axis by lra.
    f_equal. unfold T_c, pose1, translate, matmul4, mv, vsub, vadd, dot3, I3; simpl.
    f_equal; ring. }
  split; [|split].
  - rewrite icp_iteration_accept by (rewrite J1; unfold expected_motion; lra).
    f_equal. unfold pose1, pose0, eye4. mat_eq.
  - rewrite J2. unfold expected_motion. lra.
  - rewrite icp_iteration_reject by (rewrite J2; unfold expected_motion; lra).
    simpl. intros H. apply (f_equal (fun M => vy (trans M))) in H.
    unfold pose1, pose0, matmul4, translate, mv, vsub, vadd, dot3, Rz90, eye4, zero3 in H;
      simpl in H. lra.
Qed.

(** Frame [k] of a pose list either moved at most [3 * expected_motion] or
    is the motion-model pose with reported fitness [fk]. *)
Definition jump_ok (poses : list Mat4) (k : nat) (fk : R) : Prop :=
  norm3 (vsub (trans (nth k poses eye4)) (trans (nth (k - 1) poses eye4)))
    <= 3 * expected_motion \/
  (fk = 0 /\
   nth k poses eye4 =
   motion_fallback (nth (k - 1) poses eye4)
     (if (2 <=? k)%nat then Some (nth (k - 2) poses eye4) else None)).

Lemma icp_iteration_jump_ok prev older T_c fit :
  let out := icp_iteration prev older T_c fit in
  norm3 (vsub (trans (fst out)) (trans prev)) <= 3 * expected_motion \/
  (snd out = 0 /\ fst out = motion_fallback prev (hd_error older)).
Proof.
  intros out. unfold out, icp_iteration.
  destruct (Rlt_dec _ _) as [H|H]; cbn [fst snd].
  - right. split; reflexivity.
  - left. apply Rnot_lt_le in H. lra.
Qed.

Lemma seq_frames_cons pre reg ulm ws i st c cs tgt :
  seq_target pre ulm ws i (seq_world st) = Some tgt ->
  seq_frames pre reg ulm ws i st (c :: cs) =
  let res := reg (map (apply_pose (seq_prev st)) (pre c)) tgt in
  let out := icp_iteration (seq_prev st) (seq_older st)
               (transformation res) (fitness res) in
  option_map (cons out)
    (seq_frames pre reg ulm ws (S i)
       (mkSeqState (fst out) (seq_prev st :: seq_older st)
          (seq_world st ++ [map (apply_pose (fst out)) c])) cs).
Proof.
  intros E. simpl. unfold seq_step. rewrite E.
  destruct (icp_iteration _ _ _ _); reflexivity.
Qed.

Lemma seq_frames_cons_error pre reg ulm ws i st c cs :
  seq_target pre ulm ws i (seq_world st) = None ->
  seq_frames pre reg ulm ws i st (c :: cs) = None.
Proof. intros E. simpl. unfold seq_step. rewrite E. reflexivity. Qed.

Lemma nth_hist_last (older : list Mat4) (prev : Mat4) rest :
  nth (length older) ((rev older ++ [prev]) ++ rest) eye4 = prev.
Proof.
  rewrite <- app_assoc. rewrite app_nth2 by (rewrite length_rev; lia).
  rewrite length_rev, Nat.sub_diag. reflexivity.
Qed.

Lemma nth_hist_before (o : Mat4) (older : list Mat4) (prev : Mat4) rest :
  nth (length older) ((rev (o :: older) ++ [prev]) ++ rest) eye4 = o.
Proof.
  rewrite <- app_assoc. rewrite app_nth1 by (simpl; rewrite length_app, length_rev; simpl; lia).
  rewrite rev_nth by (simpl; lia). simpl length.
  replace (S (length older) - S (length older))%nat with O by lia. reflexivity.
Qed.

Lemma seq_frames_jump_ok pre reg ulm ws cs :
  forall i st tr, seq_frames pre reg ulm ws i st cs = Some tr ->
  forall k,
  (length (rev (seq_prev st :: seq_older st)) <= k <
   length (rev (seq_prev st :: seq_older st) ++ map fst tr))%nat ->
  jump_ok (rev (seq_prev st :: seq_older st) ++ map fst tr) k
    (snd (nth (k - length (rev (seq_prev st :: seq_older st))) tr (eye4, 0))).
Proof.
  induction cs as [|c cs IH]; intros i st tr E k Hk.
  - simpl in E. injection E as <-. simpl in Hk. rewrite app_nil_r in Hk. lia.
  - destruct st as [prev older world].
    destruct (seq_target pre ulm ws i world) as [tgt|] eqn:Et.
    2: { rewrite seq_frames_cons_error in E by exact Et. discriminate. }
    rewrite (seq_frames_cons pre reg ulm ws i (mkSeqState prev older world) c cs tgt Et) in E.
    cbn zeta in E. cbn [seq_prev seq_older seq_world] in *.
    set (out := icp_iteration prev older _ _) in *.
    pose proof (icp_iteration_jump_ok prev older
      (transformation (reg (map (apply_pose prev) (pre c)) tgt))
      (fitness (reg (map (apply_pose prev) (pre c)) tgt))) as J.
    fold out in J. cbv zeta in J.
    destruct (seq_frames pre reg ulm ws (S i) _ cs) as [rest|] eqn:Er; [|discriminate].
    simpl in E. injection E as <-.
    simpl rev in *. rewrite length_app, length_rev in *. simpl length in *.
    rewrite ?Nat.add_1_r in *.
    destruct (Nat.eq_dec k (S (length older))) as [->|Hne].
    + (* the new frame *)
      rewrite Nat.sub_diag. cbn [nth].
      unfold jump_ok. simpl map.
      assert (Ek : nth (S (length older)) ((rev older ++ [prev]) ++ fst out :: map fst rest) eye4
                   = fst out).
      { rewrite app_nth2 by (rewrite length_app, length_rev; simpl; lia).
        rewrite length_app, length_rev. simpl length.
        replace (S (length older) - (length older + 1))%nat with O by lia. reflexivity. }
      rewrite Ek. replace (S (length older) - 1)%nat with (length older) by lia.
      rewrite nth_hist_last.
      destruct J as [J|[J1 J2]]; [left; exact J | right; split; [exact J1|]].
      rewrite J2. f_equal.
      destruct older as [|o older']; [reflexivity|].
      simpl length. cbn [Nat.leb hd_error]. f_equal.
      replace (S (S (length older')) - 2)%nat with (length older') by lia.
      replace (rev older' ++ [o]) with (rev (o :: older')) by reflexivity.
      rewrite (nth_hist_before o older' prev). reflexivity.
    + (* a later frame: the induction hypothesis on the shifted history *)
      specialize (IH (S i) (mkSeqState (fst out) (prev :: older)
                              (world ++ [map (apply_pose (fst out)) c])) rest Er k).
      cbn [seq_prev seq_older] in IH.
      simpl rev in IH. rewrite !length_app, length_rev in IH. simpl length in IH.
      replace ((rev older ++ [prev]) ++ [fst out]) with (rev older ++ [prev; fst out]) in IH
        by (rewrite <- app_assoc; reflexivity).
      replace ((rev older ++ [prev]) ++ map fst (out :: rest))
        with (rev older ++ [prev; fst out] ++ map fst rest)
        by (simpl; rewrite <- app_assoc; reflexivity).
      rewrite app_assoc.
      replace (k - S (length older))%nat with (S (k - (length older + 1 + 1)))%nat by lia.
      cbn [nth]. apply IH.
      simpl in Hk. rewrite ?length_app, ?length_rev, ?length_map in Hk. simpl in Hk. rewrite ?length_map in Hk.
      rewrite length_map. lia.
Qed.

Lemma register_frame_inv pre reg st pts :
  icp_inv st -> icp_inv (fst (register_frame pre reg st pts)).
Proof.
  destruct st as [prev older world cnt]. unfold icp_inv, register_frame. simpl.
  intros [Hw [Ho Hz]]. destruct cnt as [|n].
  - destruct (Hz eq_refl) as [-> ->]. simpl. rewrite length_app. simpl.
    split; [lia|]. split; [reflexivity|discriminate].
  - destruct (map decimate _) as [|m ms].
    + simpl. auto.
    + destruct (op_validate _ _ _ _) as [T f]. simpl. rewrite length_app. simpl.
      split; [lia|]. split; [lia|discriminate].
Qed.

Lemma icp_on_event_inv pre reg st ev st' outs status :
  icp_inv st -> icp_on_event pre reg st ev = Some (st', outs, status) -> icp_inv st'.
Proof.
  intros Hi E. unfold icp_on_event in E.
  destruct ev as [id value| |]; cbv iota beta in E.
  - destruct (String.eqb id "pointcloud"); [|injection E as <- _ _; exact Hi].
    destruct value as [|v vs]; [injection E as <- _ _; exact Hi|].
    destruct (reshape3 (v :: vs)) as [pts|]; [|discriminate].
    pose proof (register_frame_inv pre reg st pts Hi) as Hr.
    destruct (register_frame pre reg st pts) as [s [[p f] r]].
    injection E as <- _ _. exact Hr.
  - injection E as <- _ _. exact Hi.
  - injection E as <- _ _. exact Hi.
Qed.

Lemma icp_inv_reachable pre reg st : icp_reachable pre reg st -> icp_inv st.
Proof.
  induction 1 as [|st ev st' outs status _ IH E].
  - unfold icp_inv, op_init. simpl. auto.
  - exact (icp_on_event_inv _ _ _ _ _ _ _ IH E).
Qed.

Lemma flatten4_inj (A B : Mat4) : flatten4 A = flatten4 B -> A = B.
Proof.
  destruct A as [[[a1 a2 a3] [a4 a5 a6] [a7 a8 a9]] [t1 t2 t3]].
  destruct B as [[[b1 b2 b3] [b4 b5 b6] [b7 b8 b9]] [u1 u2 u3]].
  unfold flatten4. simpl. intros H. injection H as -> -> -> -> -> -> -> -> -> -> -> ->.
  reflexivity.
Qed.

(** Reads the published pose and fitness back from an operator result. *)
Ltac pose_status_inv E HP Hf :=
  pose proof (f_equal (fun o => match o with
                                | Some (_, [(_, x); _], _) => x
                                | _ => [] end) E) as HP;
  pose proof (f_equal (fun o => match o with
                                | Some (_, [_; (_, [_; y; _])], _) => y
                                | _ => 0 end) E) as Hf;
  cbv beta iota in HP, Hf.

Lemma norm3_vsub_self (a : V3) : norm3 (vsub a a) = 0.
Proof.
  unfold norm3, dot3, vsub. simpl.
  replace ((vx a - vx a) * (vx a - vx a) + (vy a - vy a) * (vy a - vy a) +
           (vz a - vz a) * (vz a - vz a)) with 0 by ring.
  apply sqrt_0.
Qed.

(** C2.  In both ICP odometry paths every frame moved at most
    [3 * mu = 0.75] m from the previous one, unless its reported fitness is
    0 and its pose is the motion-model fallback pose.  For
    [run_on_sequence]: frame [i >= 1] of the returned poses against frame
    [i - 1], with the fitness of frame [i].  For the dataflow operator: on
    every state reachable from [__init__], the pose a ["pointcloud"] input
    publishes (with the fitness of its ["odometry_status"]) against the
    stored pose [self.poses[-1]] it started from. *)
Theorem icp_jump_bounded_unless_fallback pre reg :
  (forall ulm ws clouds poses tr (i : nat),
     run_on_sequence pre reg ulm ws clouds = Some poses ->
     run_trace pre reg ulm ws clouds = Some tr ->
     (1 <= i < length poses)%nat ->
     norm3 (vsub (trans (nth i poses eye4)) (trans (nth (i - 1) poses eye4)))
       <= 3 * expected_motion \/
     (snd (nth (i - 1) tr (eye4, 0)) = 0 /\
      nth i poses eye4 =
      motion_fallback (nth (i - 1) poses eye4)
        (if (2 <=? i)%nat then Some (nth (i - 2) poses eye4) else None))) /\
  (forall st value st' P k f r,
     icp_reachable pre reg st ->
     icp_on_event pre reg st (Input "pointcloud" value) =
       Some (st', [("pose"%string, flatten4 P); ("odometry_status"%string, [k; f; r])],
             CONTINUE) ->
     norm3 (vsub (trans P) (trans (op_prev st))) <= 3 * expected_motion \/
     (f = 0 /\ P = motion_fallback (op_prev st) (hd_error (op_older st)))).
Proof.
  split.
  - intros ulm ws clouds poses tr i Ep Et Hi.
    destruct clouds as [|c0 rest]; [simpl in Ep; injection Ep as <-; simpl in Hi; lia|].
    simpl in Ep, Et. rewrite Et in Ep. simpl in Ep. injection Ep as <-.
    pose proof (seq_frames_jump_ok pre reg ulm ws rest 1 (mkSeqState eye4 [] [c0]) tr Et i)
      as J.
    simpl in J. apply J. simpl in Hi |- *. rewrite length_map in Hi |- *. lia.
  - intros st value st' P k f r Hr E.
    destruct (icp_inv_reachable _ _ _ Hr) as [_ [_ Hz]].
    unfold icp_on_event in E. simpl String.eqb in E. cbv iota in E.
    destruct value as [|v vs]; [discriminate|].
    destruct (reshape3 (v :: vs)) as [pts|]; [|discriminate].
    destruct st as [prev older world cnt]. cbn [op_prev op_older op_frame_count] in *.
    unfold register_frame in E. cbn [op_frame_count op_prev op_older op_world] in E.
    destruct cnt as [|n].
    + destruct (Hz eq_refl) as [-> _].
      pose_status_inv E HP Hf. apply flatten4_inj in HP. subst P.
      left. rewrite norm3_vsub_self. unfold expected_motion. lra.
    + destruct (map decimate _) as [|m ms].
      * pose_status_inv E HP Hf. apply flatten4_inj in HP. subst P.
        left. rewrite norm3_vsub_self. unfold expected_motion. lra.
      * rewrite op_validate_eq in E.
        match type of E with context [icp_iteration prev older ?T ?F] =>
          pose proof (icp_iteration_jump_ok prev older T F) as J; cbv zeta in J;
          destruct (icp_iteration prev older T F) as [T' f'] eqn:Ev
        end.
        cbn [fst snd] in J.
        pose_status_inv E HP Hf. apply flatten4_inj in HP. subst P f. exact J.
Qed.

(** ** ICP odometry operator: empty point-cloud inputs *)

(** C8 (amended).  A ["pointcloud"] input with zero values is dropped by the
    ICP odometry operator: it returns [CONTINUE], sends no output (neither a
    pose nor an odometry status) and leaves its state (poses, world clouds,
    frame count) unchanged. *)
Theorem icp_empty_frame_dropped pre reg (st : OpState) :
  icp_on_event pre reg st (Input "pointcloud" []) = Some (st, [], CONTINUE).
Proof. reflexivity. Qed.

(** C8 counterexample.  On an empty point cloud no fitness is reported:
    no ["odometry_status"] output (with fitness 0 or any other) is sent. *)
Lemma icp_empty_frame_no_status :
  ~ exists st' outs status frame fit rmse,
      icp_on_event (fun pts => pts) (fun _ _ => mkIcpResult eye4 1 0)
        op_init (Input "pointcloud" []) = Some (st', outs, status) /\
      In ("odometry_status"%string, [frame; fit; rmse]) outs.
Proof.
  intros (st' & outs & status & frame & fit & rmse & H & Hin).
  simpl in H. injection H as _ <- _. exact Hin.
Qed.

(** ** Douglas-Peucker ([WaypointExtractor._douglas_peucker]) *)

Lemma norm2_zero (a : V2) : px a = 0 -> py a = 0 -> norm2 a = 0.
Proof.
  intros Hx Hy. unfold norm2, dot2. rewrite Hx, Hy.
  replace (0 * 0 + 0 * 0) with 0 by ring. apply sqrt_0.
Qed.

Lemma norm2_nonneg (a : V2) : 0 <= norm2 a.
Proof. apply sqrt_pos. Qed.

Lemma dot2_self_nonneg (a : V2) : 0 <= dot2 a a.
Proof.
  unfold dot2. pose proof (Rle_0_sqr (px a)). pose proof (Rle_0_sqr (py a)).
  unfold Rsqr in *. lra.
Qed.

Lemma dp_distance_start s u : dp_distance s u s = 0.
Proof.
  unfold dp_distance, v2sub, v2add, v2scale, dot2; apply norm2_zero; simpl; ring.
Qed.

(** The chord's end point lies on the chord. *)
Lemma dp_distance_end (points : list V2) :
  0 < dp_line_len points ->
  dp_distance (dp_start points) (dp_line_unit points) (dp_end points) = 0.
Proof.
  unfold dp_line_unit, dp_line_len.
  set (s := dp_start points). set (e := dp_end points).
  intros HL.
  set (L := norm2 (v2sub e s)) in *.
  set (a := px e - px s). set (b := py e - py s).
  assert (HL2 : L * L = a * a + b * b).
  { unfold L, norm2. rewrite sqrt_sqrt; [reflexivity|]. apply dot2_self_nonneg. }
  assert (E : a * (/ L * a) + b * (/ L * b) = L).
  { replace (a * (/ L * a) + b * (/ L * b)) with ((a * a + b * b) * / L) by ring.
    rewrite <- HL2. field. lra. }
  unfold dp_distance, v2sub, v2add, v2scale, dot2; simpl.
  fold a b. rewrite E.
  apply norm2_zero; simpl; unfold a, b; field; lra.
Qed.

Lemma fold_left_Rmax_ge (l : list R) (x : R) :
  x <= fold_left Rmax l x /\ forall y, In y l -> y <= fold_left Rmax l x.
Proof.
  revert x. induction l as [|z l IH]; intros x; simpl.
  - split; [lra | tauto].
  - destruct (IH (Rmax x z)) as [H1 H2]. split.
    + eapply Rle_trans; [apply Rmax_l | exact H1].
    + intros y [<-|Hy]; [eapply Rle_trans; [apply Rmax_r | exact H1] | auto].
Qed.

Lemma fold_left_Rmax_in (l : list R) (x : R) :
  fold_left Rmax l x = x \/ In (fold_left Rmax l x) l.
Proof.
  revert x. induction l as [|z l IH]; intros x; simpl; [left; reflexivity|].
  destruct (IH (Rmax x z)) as [H|H]; [|right; right; exact H].
  rewrite H. destruct (Rmax_Rle x z z) as [_ _].
  unfold Rmax. destruct (Rle_dec x z); [right; left; reflexivity | left; reflexivity].
Qed.

Lemma list_max_in (l : list R) : l <> [] -> In (list_max l) l.
Proof.
  destruct l as [|x t]; [congruence|]. intros _. simpl.
  destruct (fold_left_Rmax_in t x) as [->|H]; [left; reflexivity | right; exact H].
Qed.

Lemma index_of_spec (m : R) (l : list R) :
  In m l -> (index_of m l < length l)%nat /\ nth (index_of m l) l 0 = m.
Proof.
  induction l as [|x t IH]; simpl; [tauto|].
  intros Hin. destruct (Req_EM_T x m) as [->|Hne].
  - split; [lia | reflexivity].
  - destruct Hin as [->|Hin]; [congruence|].
    destruct (IH Hin) as [H1 H2]. split; [lia | exact H2].
Qed.

(** When the tolerance is exceeded, the split index is an interior one. *)
Lemma dp_split_interior (points : list V2) (tol : R) :
  0 <= tol -> (3 <= length points)%nat -> 0 < dp_line_len points ->
  let distances := map (dp_distance (dp_start points) (dp_line_unit points)) points in
  tol < list_max distances ->
  (0 < index_of (list_max distances) distances < length points - 1)%nat.
Proof.
  intros Htol Hn HL distances Hmax.
  assert (Hne : distances <> []).
  { unfold distances. destruct points; simpl in *; [lia | congruence]. }
  destruct (index_of_spec _ _ (list_max_in _ Hne)) as [Hlt Hnth].
  unfold distances in Hlt. rewrite length_map in Hlt.
  set (m := index_of _ _) in *.
  assert (D0 : nth 0 distances 0 = 0).
  { unfold distances. rewrite nth_indep with (d' := dp_distance (dp_start points)
      (dp_line_unit points) zero2) by (rewrite length_map; lia).
    rewrite map_nth. apply dp_distance_start. }
  assert (Dn : nth (length points - 1) distances 0 = 0).
  { unfold distances. rewrite nth_indep with (d' := dp_distance (dp_start points)
      (dp_line_unit points) zero2) by (rewrite length_map; lia).
    rewrite map_nth. rewrite <- (dp_distance_end points HL). f_equal.
    unfold dp_end. destruct points as [|p ps] using rev_ind; [simpl in Hn; lia|].
    rewrite last_last, length_app. simpl.
    rewrite app_nth2 by lia. replace (length ps + 1 - 1 - length ps)%nat with O by lia.
    reflexivity. }
  split.
  - destruct m as [|m']; [|lia]. exfalso. rewrite D0 in Hnth. lra.
  - destruct (Nat.eq_dec m (length points - 1)) as [E|E]; [|lia].
    exfalso. rewrite E, Dn in Hnth. lra.
Qed.

(** Index lists kept by Douglas-Peucker on [n] points: they start at the
    first point, end at the last and are strictly increasing. *)
Definition dp_ok (n : nat) (idx : list nat) : Prop :=
  hd_error idx = Some O /\ last idx O = (n - 1)%nat /\ StronglySorted Nat.lt idx.

Lemma SS_app_inv {A} (Rel : A -> A -> Prop) (l1 l2 : list A) :
  StronglySorted Rel (l1 ++ l2) ->
  StronglySorted Rel l1 /\ StronglySorted Rel l2 /\
  (forall x y, In x l1 -> In y l2 -> Rel x y).
Proof.
  induction l1 as [|a l1 IH]; simpl; intros H.
  - split; [constructor | split; [exact H | tauto]].
  - apply StronglySorted_inv in H as [H1 H2].
    destruct (IH H1) as (S1 & S2 & S3). rewrite Forall_forall in H2.
    split; [constructor; [exact S1 | apply Forall_forall; intros; apply H2, in_or_app; auto]|].
    split; [exact S2|].
    intros x y [<-|Hx] Hy; [apply H2, in_or_app; auto | auto].
Qed.

Lemma SS_app {A} (Rel : A -> A -> Prop) (l1 l2 : list A) :
  StronglySorted Rel l1 -> StronglySorted Rel l2 ->
  (forall x y, In x l1 -> In y l2 -> Rel x y) ->
  StronglySorted Rel (l1 ++ l2).
Proof.
  induction l1 as [|a l1 IH]; simpl; intros S1 S2 S3; [exact S2|].
  apply StronglySorted_inv in S1 as [S1 F1]. rewrite Forall_forall in F1.
  constructor; [apply IH; auto|].
  apply Forall_forall. intros y Hy. apply in_app_or in Hy as [Hy|Hy]; auto.
Qed.

Lemma SS_map_add (m : nat) (l : list nat) :
  StronglySorted Nat.lt l -> StronglySorted Nat.lt (map (fun i => (i + m)%nat) l).
Proof.
  induction l as [|a l IH]; simpl; intros H; [constructor|].
  apply StronglySorted_inv in H as [H1 H2]. constructor; [auto|].
  rewrite Forall_forall in *. intros y Hy. apply in_map_iff in Hy as (z & <- & Hz).
  specialize (H2 z Hz). lia.
Qed.

Lemma last_app_nonempty {A} (l1 l2 : list A) d :
  l2 <> [] -> last (l1 ++ l2) d = last l2 d.
Proof.
  intros Hne. induction l1 as [|a l1 IH]; [reflexivity|].
  simpl. rewrite IH. destruct (l1 ++ l2) eqn:E; [|reflexivity].
  apply app_eq_nil in E as [_ E]. congruence.
Qed.

Lemma last_map_nonempty {A B} (f : A -> B) (l : list A) d d' :
  l <> [] -> last (map f l) d = f (last l d').
Proof.
  induction l as [|a l IH]; [congruence|]. intros _.
  destruct l as [|b l]; [reflexivity|].
  change (last (map f (b :: l)) d = f (last (b :: l) d')). apply IH. congruence.
Qed.

Lemma dp_ok_combine (m n : nat) (L Rt : list nat) :
  (0 < m)%nat -> (m < n - 1)%nat -> dp_ok (m + 1) L -> dp_ok (n - m) Rt ->
  dp_ok n (removelast L ++ map (fun i => (i + m)%nat) Rt).
Proof.
  intros Hm Hmn (L1 & L2 & L3) (R1 & R2 & R3).
  assert (LneN : L <> []) by (intros ->; discriminate).
  assert (RneN : Rt <> []) by (intros ->; discriminate).
  pose proof (app_removelast_last O LneN) as EL.
  rewrite L2 in EL. replace (m + 1 - 1)%nat with m in EL by lia.
  assert (RLne : removelast L <> []).
  { intros E. rewrite E in EL. simpl in EL. rewrite EL in L1. simpl in L1.
    injection L1. lia. }
  rewrite EL in L3. apply SS_app_inv in L3 as (S1 & _ & S3).
  split; [|split].
  - destruct (removelast L) as [|a l] eqn:E; [congruence|].
    rewrite EL in L1. simpl in L1 |- *. exact L1.
  - rewrite last_app_nonempty by (destruct Rt; simpl; congruence).
    rewrite (last_map_nonempty _ _ _ O RneN). rewrite R2. lia.
  - apply SS_app; [exact S1 | apply SS_map_add, R3|].
    intros x y Hx Hy. apply in_map_iff in Hy as (z & <- & _).
    specialize (S3 x m Hx (or_introl eq_refl)). unfold Nat.lt in *. lia.
Qed.

Lemma dp_ok_endpoints (n : nat) : (2 <= n)%nat -> dp_ok n [O; (n - 1)%nat].
Proof.
  intros Hn. split; [reflexivity | split; [reflexivity|]].
  repeat constructor. unfold Nat.lt. lia.
Qed.

Lemma dp_ok_seq (n : nat) : (1 <= n < 3)%nat -> dp_ok n (seq 0 n).
Proof.
  intros Hn. destruct n as [|[|[|n]]]; try lia.
  - split; [reflexivity | split; [reflexivity | repeat constructor]].
  - apply (dp_ok_endpoints 2); lia.
Qed.

(** With enough fuel and a non-negative tolerance the recursion terminates
    and keeps the first and last points, in increasing order. *)
Lemma douglas_peucker_ok (tol : R) :
  0 <= tol ->
  forall fuel points, (1 <= length points <= fuel)%nat ->
  exists idx, douglas_peucker fuel points tol = Some idx /\ dp_ok (length points) idx.
Proof.
  intros Htol. induction fuel as [|fuel IH]; intros points Hn; [lia|].
  simpl douglas_peucker.
  destruct (Nat.ltb_spec (length points) 3) as [H3|H3].
  { eexists; split; [reflexivity | apply dp_ok_seq; lia]. }
  destruct (Rlt_dec (dp_line_len points) 1e-6) as [Hs|Hs].
  { eexists; split; [reflexivity | apply dp_ok_endpoints; lia]. }
  destruct (Rlt_dec tol _) as [Hmax|Hmax].
  2: { eexists; split; [reflexivity | apply dp_ok_endpoints; lia]. }
  pose proof (dp_split_interior points tol Htol H3 ltac:(lra) Hmax) as Hm.
  set (m := index_of _ _) in *.
  destruct (IH (firstn (m + 1) points)) as (L & EL & OL).
  { rewrite length_firstn. lia. }
  destruct (IH (skipn m points)) as (Rt & ER & OR).
  { rewrite length_skipn. lia. }
  rewrite EL, ER. eexists; split; [reflexivity|].
  rewrite length_firstn in OL. rewrite length_skipn in OR.
  replace (Nat.min (m + 1) (length points)) with (m + 1)%nat in OL by lia.
  apply dp_ok_combine; auto; lia.
Qed.



Lemma dp_indices_short_chord (pts : list V2) (tol : R) :
  (3 <= length pts)%nat -> dp_line_len pts < 1e-6 ->
  dp_indices pts tol = Some [O; (length pts - 1)%nat].
Proof.
  intros Hn Hs. unfold dp_indices. simpl douglas_peucker.
  destruct (Nat.ltb_spec (length pts) 3) as [H3|H3]; [lia|].
  destruct (Rlt_dec _ _) as [_|Hs']; [reflexivity | contradiction].
Qed.

(** ** Waypoint extraction: spacing, first point, non-emptiness *)

Lemma Chain_impl {A} (r1 r2 : A -> A -> Prop) (l : list A) :
  (forall x y, r1 x y -> r2 x y) -> Chain r1 l -> Chain r2 l.
Proof. intros H C. induction C; constructor; auto. Qed.

Lemma Chain_map {A B} (f : A -> B) (r : B -> B -> Prop) (l : list A) :
  Chain (fun x y => r (f x) (f y)) l -> Chain r (map f l).
Proof. intros C. induction C; simpl; constructor; auto. Qed.

Lemma spacing_from_chain {A} (proj : A -> V2) (s : R) (l : list A) :
  forall last,
  Chain (fun a b => s <= norm2 (v2sub (proj b) (proj a)))
    (last :: spacing_from proj s last l).
Proof.
  induction l as [|p t IH]; intros last; simpl; [constructor|].
  destruct (Rle_dec s _) as [H|H]; [constructor; auto | apply IH].
Qed.

Lemma spacing_from_keep {A} (proj : A -> V2) s last p t :
  s <= norm2 (v2sub (proj p) (proj last)) ->
  spacing_from proj s last (p :: t) = p :: spacing_from proj s p t.
Proof. intros H. simpl. destruct (Rle_dec _ _); [reflexivity | contradiction]. Qed.

Lemma spacing_from_drop {A} (proj : A -> V2) s last p t :
  norm2 (v2sub (proj p) (proj last)) < s ->
  spacing_from proj s last (p :: t) = spacing_from proj s last t.
Proof. intros H. simpl. destruct (Rle_dec _ _); [lra | reflexivity]. Qed.

Lemma filter_by_distance_spaced (s : R) (positions : list V3) :
  spaced s (map xy (filter_by_distance s positions)).
Proof.
  unfold spaced. destruct positions as [|p0 rest]; simpl; [constructor|].
  apply (Chain_map xy (fun a b => s <= norm2 (v2sub b a)) (p0 :: _)).
  apply spacing_from_chain.
Qed.

Lemma spaced_distinct (s : R) (l : list V2) : 0 < s -> spaced s l -> adjacent_distinct l.
Proof.
  intros Hs. apply Chain_impl. intros a b H E. subst b.
  assert (Z0 : norm2 (v2sub a a) = 0) by (apply norm2_zero; simpl; ring). lra.
Qed.

Lemma insertZ_perm (x : Z) (l : list Z) : Permutation (insertZ x l) (x :: l).
Proof.
  induction l as [|y t IH]; simpl; [reflexivity|].
  destruct (Z.leb x y); [reflexivity|].
  rewrite IH. apply perm_swap.
Qed.

Lemma sortZ_perm (l : list Z) : Permutation (sortZ l) l.
Proof.
  induction l as [|x t IH]; simpl; [reflexivity|].
  rewrite insertZ_perm. apply perm_skip, IH.
Qed.

Lemma insertZ_sorted (x : Z) (l : list Z) :
  StronglySorted Z.le l -> StronglySorted Z.le (insertZ x l).
Proof.
  induction l as [|y t IH]; simpl; intros H; [repeat constructor|].
  apply StronglySorted_inv in H as [H1 H2].
  destruct (Z.leb_spec x y) as [Hxy|Hxy].
  - constructor; [constructor; auto|].
    constructor; [exact Hxy|]. rewrite Forall_forall in *.
    intros z Hz. specialize (H2 z Hz). lia.
  - constructor; [apply IH, H1|].
    rewrite Forall_forall in *. intros z Hz.
    apply (Permutation_in _ (insertZ_perm x t)) in Hz as [<-|Hz]; [lia | auto].
Qed.

Lemma sortZ_sorted (l : list Z) : StronglySorted Z.le (sortZ l).
Proof. induction l; simpl; [constructor | apply insertZ_sorted; auto]. Qed.

(** [sorted_ids] starts with the smallest pose id. *)
Lemma sorted_ids_head (d : PoseDict) :
  d <> [] ->
  In (hd 0%Z (sorted_ids d)) (map fst d) /\
  forall k, In k (map fst d) -> (hd 0%Z (sorted_ids d) <= k)%Z.
Proof.
  intros Hne. unfold sorted_ids.
  pose proof (sortZ_perm (map fst d)) as P. pose proof (sortZ_sorted (map fst d)) as S.
  destruct (sortZ (map fst d)) as [|k0 ks] eqn:E.
  { apply Permutation_nil in P. destruct d; simpl in P; congruence. }
  simpl. split.
  - apply (Permutation_in _ P). left; reflexivity.
  - intros k Hk. apply (Permutation_in _ (Permutation_sym P)) in Hk as [<-|Hk]; [lia|].
    apply StronglySorted_inv in S as [_ F]. rewrite Forall_forall in F. auto.
Qed.

Lemma extract_plain (cfg : ExtractorConfig) (poses : PoseDict) :
  simplify cfg = false -> z_threshold cfg = None ->
  extract cfg poses =
  Some (map xy (filter_by_distance (min_distance cfg)
          (map (fun i => trans (dict_get poses i)) (sorted_ids poses)))).
Proof.
  intros Hs Hz. destruct poses as [|e es]; [reflexivity|].
  unfold extract. cbv zeta. rewrite Hz, Hs. reflexivity.
Qed.

Lemma filter_by_distance_hd (s : R) (positions : list V3) :
  hd_error (map xy (filter_by_distance s positions)) = hd_error (map xy positions).
Proof. destruct positions; reflexivity. Qed.

Lemma op_extract_plain (s eps : R) (m : Mat4) (ms : list Mat4) :
  let trajectory := map (fun p => xy (trans p)) (m :: ms) in
  let t0 := xy (trans m) in
  let waypoints := t0 :: spacing_from (fun p => p) s t0 (tl trajectory) in
  op_extract_waypoints s false eps (m :: ms) =
  if Rlt_dec 0.1 (norm2 (v2sub (last trajectory zero2) (last waypoints zero2)))
  then Some (waypoints ++ [last trajectory zero2]) else Some waypoints.
Proof. reflexivity. Qed.

(** C7 (amended). With simplification off and the Z-band filter disabled,
    [WaypointExtractor.extract] returns waypoints whose consecutive
    distances are all at least [min_distance], starting with the projection
    of the first pose in id order; [_filter_by_distance] keeps a candidate
    exactly when its distance to the last kept point is at least
    [min_distance] (equality included) and drops it when the distance is
    smaller. The dataflow operator's minimum-spacing branch returns [[]]
    for no poses; otherwise it builds the same kind of spaced list
    [waypoints] (the first trajectory point, then each point at least
    [min_spacing] from the last kept one) and returns
    [waypoints ++ [last trajectory point]] when that point lies more than
    0.1 m from the last kept waypoint, and [waypoints] otherwise; so only
    the last gap can be below [min_spacing]. *)
Theorem waypoint_spacing_without_simplification
    (cfg : ExtractorConfig) (poses : PoseDict) (s eps : R) :
  simplify cfg = false -> z_threshold cfg = None ->
  (exists ws, extract cfg poses = Some ws /\
     spaced (min_distance cfg) ws /\
     hd_error ws = hd_error (map (fun i => xy (trans (dict_get poses i))) (sorted_ids poses))) /\
  (forall (p0 p : V3) (rest : list V3),
     (min_distance cfg <= norm2 (v2sub (xy p) (xy p0)) ->
      filter_by_distance (min_distance cfg) (p0 :: p :: rest)
      = p0 :: filter_by_distance (min_distance cfg) (p :: rest)) /\
     (norm2 (v2sub (xy p) (xy p0)) < min_distance cfg ->
      filter_by_distance (min_distance cfg) (p0 :: p :: rest)
      = filter_by_distance (min_distance cfg) (p0 :: rest))) /\
  op_extract_waypoints s false eps [] = Some [] /\
  (forall (m : Mat4) (ms : list Mat4),
     let trajectory := map (fun p => xy (trans p)) (m :: ms) in
     let waypoints := xy (trans m) :: spacing_from (fun p => p) s (xy (trans m)) (tl trajectory) in
     spaced s waypoints /\
     (0.1 < norm2 (v2sub (last trajectory zero2) (last waypoints zero2)) ->
      op_extract_waypoints s false eps (m :: ms) = Some (waypoints ++ [last trajectory zero2])) /\
     (norm2 (v2sub (last trajectory zero2) (last waypoints zero2)) <= 0.1 ->
      op_extract_waypoints s false eps (m :: ms) = Some waypoints)).
Proof.
  intros Hs Hz. split; [|split; [|split]].
  - eexists; split; [apply extract_plain; assumption|]. split.
    + apply filter_by_distance_spaced.
    + rewrite filter_by_distance_hd, map_map. reflexivity.
  - intros p0 p rest. unfold filter_by_distance. split; intros H.
    + rewrite spacing_from_keep; [reflexivity | exact H].
    + rewrite spacing_from_drop; [reflexivity | exact H].
  - reflexivity.
  - intros m ms. cbv zeta. split.
    + exact (spacing_from_chain (fun p : V2 => p) s
               (tl (map (fun p => xy (trans p)) (m :: ms))) (xy (trans m))).
    + rewrite op_extract_plain. cbv zeta.
      split; intros H; destruct (Rlt_dec _ _) as [H'|H']; solve [reflexivity | lra].
Qed.

Lemma norm2_axis (v : V2) (a : R) : px v = a -> py v = 0 -> 0 <= a -> norm2 v = a.
Proof.
  intros Hx Hy Ha. unfold norm2, dot2. rewrite Hx, Hy.
  replace (a * a + 0 * 0) with (a * a) by ring. apply sqrt_square, Ha.
Qed.

(** C7 counterexample: the operator appends the final point (1.25, 0) only
    0.25 m after the waypoint (1, 0), below the minimum spacing 0.5; and the
    extractor keeps a candidate at distance exactly [min_distance] = 1. *)
Lemma waypoint_spacing_counterexample :
  op_extract_waypoints 0.5 false 0.1
    [translate (mkV3 0 0 0); translate (mkV3 1 0 0); translate (mkV3 1.25 0 0)]
  = Some [mkV2 0 0; mkV2 1 0; mkV2 1.25 0] /\
  norm2 (v2sub (mkV2 1.25 0) (mkV2 1 0)) < 0.5 /\
  extract (mkExtractorConfig 1 false 0.1 None)
    [(0%Z, translate (mkV3 0 0 0)); (1%Z, translate (mkV3 1 0 0))]
  = Some [mkV2 0 0; mkV2 1 0] /\
  ~ (1 < norm2 (v2sub (mkV2 1 0) (mkV2 0 0))).
Proof.
  assert (N1 : norm2 (v2sub (mkV2 1 0) (mkV2 0 0)) = 1)
    by (apply norm2_axis; simpl; lra).
  assert (N2 : norm2 (v2sub (mkV2 1.25 0) (mkV2 1 0)) = 0.25)
    by (apply norm2_axis; simpl; lra).
  assert (N3 : norm2 (v2sub (mkV2 1.25 0) (mkV2 0 0)) = 1.25)
    by (apply norm2_axis; simpl; lra).
  split; [|split; [lra | split; [|lra]]].
  - rewrite op_extract_plain. cbv zeta. unfold translate, xy. cbn [map tl last trans vx vy].
    rewrite spacing_from_keep by (rewrite N1; lra).
    rewrite spacing_from_drop by (rewrite N2; lra).
    cbn [spacing_from last].
    destruct (Rlt_dec _ _) as [H|H]; [reflexivity | rewrite N2 in H; lra].
  - rewrite extract_plain by reflexivity.
    change (sorted_ids _) with [0%Z; 1%Z].
    unfold dict_get. cbn [map min_distance dict_lookup Z.eqb].
    unfold translate. cbn [trans].
    unfold filter_by_distance. rewrite spacing_from_keep.
    + reflexivity.
    + change (norm2 _) with (norm2 (v2sub (mkV2 1 0) (mkV2 0 0))). rewrite N1. lra.
Qed.

Lemma waypoint_spacing_without_simplification_witness :
  let cfg := mkExtractorConfig 0.5 false 0.1 None in
  (simplify cfg = false /\ z_threshold cfg = None) /\
  (exists ws, extract cfg [(0%Z, translate (mkV3 0 0 0)); (1%Z, translate (mkV3 1 0 0));
                           (2%Z, translate (mkV3 1.25 0 0))] = Some ws /\
              spaced 0.5 ws) /\
  op_extract_waypoints 0.5 false 0.1
    [translate (mkV3 0 0 0); translate (mkV3 1 0 0); translate (mkV3 1.25 0 0)]
  = Some [mkV2 0 0; mkV2 1 0; mkV2 1.25 0].
Proof.
  intros cfg.
  assert (N1 : norm2 (v2sub (mkV2 1 0) (mkV2 0 0)) = 1)
    by (apply norm2_axis; simpl; lra).
  assert (N2 : norm2 (v2sub (mkV2 1.25 0) (mkV2 1 0)) = 0.25)
    by (apply norm2_axis; simpl; lra).
  destruct (waypoint_spacing_without_simplification cfg
              [(0%Z, translate (mkV3 0 0 0)); (1%Z, translate (mkV3 1 0 0));
               (2%Z, translate (mkV3 1.25 0 0))] 0.5 0.1 eq_refl eq_refl)
    as [[ws [E [Sp _]]] [_ [_ Op]]].
  split; [split; reflexivity|]. split; [exists ws; split; [exact E | exact Sp]|].
  destruct (Op (translate (mkV3 0 0 0)) [translate (mkV3 1 0 0); translate (mkV3 1.25 0 0)])
    as [_ [Hgt _]].
  unfold translate, xy in Hgt. cbn [map tl last trans vx vy] in Hgt.
  rewrite spacing_from_keep in Hgt by (rewrite N1; lra).
  rewrite spacing_from_drop in Hgt by (rewrite N2; lra).
  cbn [spacing_from last app] in Hgt.
  apply Hgt. rewrite N2. lra.
Defined.

Lemma hd_error_map {A B} (f : A -> B) (l : list A) :
  hd_error (map f l) = option_map f (hd_error l).
Proof. destruct l; reflexivity. Qed.

Lemma filter_by_distance_hd3 (s : R) (positions : list V3) :
  hd_error (filter_by_distance s positions) = hd_error positions.
Proof. destruct positions; reflexivity. Qed.

Lemma simplify_trajectory_hd (tol : R) (w : list V3) :
  0 <= tol ->
  exists w', simplify_trajectory tol w = Some w' /\ hd_error w' = hd_error w.
Proof.
  intros Htol. unfold simplify_trajectory.
  destruct (Nat.ltb_spec (length w) 3) as [H3|H3]; [eauto|].
  destruct (douglas_peucker_ok tol Htol (S (length (map xy w))) (map xy w))
    as [idx [E [Hh _]]]; [rewrite length_map; lia|].
  unfold dp_indices. rewrite E. simpl option_map.
  eexists; split; [reflexivity|].
  destruct idx as [|i idx]; [discriminate|]. simpl in Hh. injection Hh as ->.
  destruct w; [simpl in H3; lia | reflexivity].
Qed.

Lemma sorted_ids_cons (d : PoseDict) :
  d <> [] -> exists k0 ks, sorted_ids d = k0 :: ks.
Proof.
  intros Hne. pose proof (sortZ_perm (map fst d)) as P. unfold sorted_ids.
  destruct (sortZ (map fst d)) as [|k0 ks]; [|eauto].
  apply Permutation_nil in P. destruct d; simpl in P; congruence.
Qed.

(** With the Z-band filter disabled and a non-negative simplification
    tolerance, [WaypointExtractor.extract] succeeds; its output is empty
    exactly when the pose dictionary is empty; its first waypoint is the 2D
    projection of the pose with the smallest id; and with simplification
    off and a positive minimum distance, consecutive waypoints are
    distinct. *)
Theorem extract_nonempty_first_distinct (cfg : ExtractorConfig) (poses : PoseDict) :
  z_threshold cfg = None -> 0 <= simplify_tolerance cfg ->
  exists ws, extract cfg poses = Some ws /\
    (ws = [] <-> poses = []) /\
    (poses <> [] ->
       exists k0, In k0 (map fst poses) /\
         (forall k, In k (map fst poses) -> (k0 <= k)%Z) /\
         hd_error ws = Some (xy (trans (dict_get poses k0)))) /\
    (simplify cfg = false -> 0 < min_distance cfg -> adjacent_distinct ws).
Proof.
  intros Hz Htol.
  destruct poses as [|e es].
  { exists []. split; [reflexivity|]. split; [tauto|].
    split; [congruence | intros; constructor]. }
  set (P := e :: es).
  assert (HP : P <> []) by discriminate.
  destruct (sorted_ids_head P HP) as [Hin Hmin].
  destruct (sorted_ids_cons P HP) as [k0 [ks Hk]].
  rewrite Hk in Hin, Hmin. simpl hd in Hin, Hmin.
  set (f := filter_by_distance (min_distance cfg)
              (map (fun i => trans (dict_get P i)) (sorted_ids P))).
  assert (Hf : hd_error f = Some (trans (dict_get P k0))).
  { unfold f. rewrite filter_by_distance_hd3, Hk. reflexivity. }
  assert (Hext : forall ws, extract cfg P = Some ws ->
            hd_error ws = Some (xy (trans (dict_get P k0))) ->
            (simplify cfg = false -> 0 < min_distance cfg -> adjacent_distinct ws) ->
            exists ws, extract cfg P = Some ws /\ (ws = [] <-> P = []) /\
              (P <> [] -> exists k0, In k0 (map fst P) /\
                 (forall k, In k (map fst P) -> (k0 <= k)%Z) /\
                 hd_error ws = Some (xy (trans (dict_get P k0)))) /\
              (simplify cfg = false -> 0 < min_distance cfg -> adjacent_distinct ws)).
  { intros ws E H D. exists ws. split; [exact E|]. split.
    - split; intros C; [subst ws; discriminate | contradiction].
    - split; [|exact D]. intros _. exists k0. auto. }
  destruct (simplify cfg) eqn:Hs.
  - destruct (simplify_trajectory_hd (simplify_tolerance cfg) f Htol) as [w' [E H]].
    apply (Hext (map xy w')).
    + unfold extract, P. cbv zeta. rewrite Hz, Hs. fold P. fold f. rewrite E. reflexivity.
    + rewrite hd_error_map, H, Hf. reflexivity.
    + discriminate.
  - apply (Hext (map xy f)).
    + apply extract_plain; assumption.
    + rewrite hd_error_map, Hf. reflexivity.
    + intros _ Hpos. apply (spaced_distinct (min_distance cfg)); [exact Hpos|].
      apply filter_by_distance_spaced.
Qed.

(** With the default configuration the closed loop (0,0,0), (1,0,0),
    (0,0,0) gives the waypoints (0,0), (0,0): two equal consecutive
    outputs. With simplification off and the default spacing 0.5, the
    poses (0,0,0), (0.2,0,0) give the single waypoint (0,0), which is not
    the projection of the last pose. *)
Lemma extract_closed_loop_repeats :
  extract default_extractor_config
    [(0%Z, translate (mkV3 0 0 0)); (1%Z, translate (mkV3 1 0 0));
     (2%Z, translate (mkV3 0 0 0))]
  = Some [mkV2 0 0; mkV2 0 0] /\
  extract (mkExtractorConfig 0.5 false 0.1 None)
    [(0%Z, translate (mkV3 0 0 0)); (1%Z, translate (mkV3 0.2 0 0))]
  = Some [mkV2 0 0].
Proof.
  assert (N1 : norm2 (v2sub (mkV2 1 0) (mkV2 0 0)) = 1)
    by (apply norm2_axis; simpl; lra).
  assert (N1' : norm2 (v2sub (mkV2 0 0) (mkV2 1 0)) = 1).
  { unfold norm2, dot2. simpl. replace ((0 - 1) * (0 - 1) + (0 - 0) * (0 - 0)) with (1 * 1) by ring.
    apply sqrt_square. lra. }
  assert (N2 : norm2 (v2sub (mkV2 0.2 0) (mkV2 0 0)) = 0.2)
    by (apply norm2_axis; simpl; lra).
  split.
  - unfold extract. cbv zeta.
    change (sorted_ids _) with [0%Z; 1%Z; 2%Z].
    unfold dict_get. cbn [map min_distance simplify simplify_tolerance z_threshold
      default_extractor_config dict_lookup Z.eqb].
    unfold translate. cbn [trans].
    unfold filter_by_distance.
    rewrite spacing_from_keep
      by (change (norm2 _) with (norm2 (v2sub (mkV2 1 0) (mkV2 0 0))); rewrite N1; lra).
    rewrite spacing_from_keep
      by (change (norm2 _) with (norm2 (v2sub (mkV2 0 0) (mkV2 1 0))); rewrite N1'; lra).
    cbn [spacing_from].
    unfold simplify_trajectory. cbn [length Nat.ltb Nat.leb].
    rewrite dp_indices_short_chord.
    + reflexivity.
    + simpl. lia.
    + unfold dp_line_len. rewrite norm2_zero; [lra | simpl; ring | simpl; ring].
  - rewrite extract_plain by reflexivity.
    change (sorted_ids _) with [0%Z; 1%Z].
    unfold dict_get. cbn [map min_distance dict_lookup Z.eqb].
    unfold translate. cbn [trans].
    unfold filter_by_distance. rewrite spacing_from_drop.
    + reflexivity.
    + change (norm2 _) with (norm2 (v2sub (mkV2 0.2 0) (mkV2 0 0))). rewrite N2. lra.
Qed.

Lemma extract_nonempty_first_distinct_witness :
  z_threshold default_extractor_config = None /\
  0 <= simplify_tolerance default_extractor_config /\
  exists ws, extract default_extractor_config
               [(0%Z, translate (mkV3 0 0 0)); (1%Z, translate (mkV3 0.2 0 0))] = Some ws /\
             ws <> [].
Proof.
  split; [reflexivity|]. split; [simpl; lra|].
  destruct (extract_nonempty_first_distinct default_extractor_config
              [(0%Z, translate (mkV3 0 0 0)); (1%Z, translate (mkV3 0.2 0 0))]
              eq_refl) as [ws [E [Hne _]]]; [simpl; lra|].
  exists ws. split; [exact E|]. intros C. apply Hne in C. discriminate.
Defined.

(** C4: [WaypointExtractor.extract] drops the last pose when it lies within
    [min_distance] of the last kept waypoint.  With the default
    configuration the poses (0,0,0), (0.2,0,0) give the single waypoint
    (0,0), not ending at the last pose's projection (0.2,0); the dataflow
    operator's [_extract_waypoints] ("Always include last point") gives
    (0,0), (0.2,0) on the same poses with its default configuration. *)
Lemma extract_drops_last_pose :
  extract default_extractor_config
    [(0%Z, translate (mkV3 0 0 0)); (1%Z, translate (mkV3 0.2 0 0))]
  = Some [mkV2 0 0] /\
  last [mkV2 0 0] zero2 <> xy (trans (translate (mkV3 0.2 0 0))) /\
  op_extract_waypoints 0.5 false 0.1 [translate (mkV3 0 0 0); translate (mkV3 0.2 0 0)]
  = Some [mkV2 0 0; mkV2 0.2 0].
Proof.
  assert (N2 : norm2 (v2sub (mkV2 0.2 0) (mkV2 0 0)) = 0.2)
    by (apply norm2_axis; simpl; lra).
  split; [|split].
  - unfold extract. cbv zeta.
    change (sorted_ids _) with [0%Z; 1%Z].
    unfold dict_get. cbn [map min_distance simplify simplify_tolerance z_threshold
      default_extractor_config dict_lookup Z.eqb].
    unfold translate. cbn [trans].
    unfold filter_by_distance. rewrite spacing_from_drop.
    + reflexivity.
    + change (norm2 _) with (norm2 (v2sub (mkV2 0.2 0) (mkV2 0 0))). rewrite N2. lra.
  - unfold translate, xy. simpl. intros E. injection E as E. lra.
  - rewrite op_extract_plain. cbv zeta. unfold translate, xy. cbn [map tl last trans vx vy].
    rewrite spacing_from_drop by (rewrite N2; lra).
    cbn [spacing_from last].
    destruct (Rlt_dec _ _) as [H|H]; [reflexivity | rewrite N2 in H; lra].
Qed.

Lemma icp_iteration_reject_5 older :
  icp_iteration eye4 older (translate (mkV3 5 0 0)) 1 = (motion_fallback eye4 (hd_error older), 0).
Proof.
  apply icp_iteration_reject. rewrite matmul4_translate_l.
  replace (vsub (trans (mkMat4 (rot eye4) (vadd (trans eye4) (mkV3 5 0 0)))) (trans eye4))
    with (mkV3 5 0 0) by (unfold vsub, vadd, eye4, zero3; simpl; f_equal; ring).
  rewrite norm3_x_axis by lra. unfold expected_motion. lra.
Qed.

Lemma icp_jump_bounded_unless_fallback_witness :
  (exists poses tr,
     run_on_sequence (fun pts => pts) (fun _ _ => mkIcpResult (translate (mkV3 5 0 0)) 1 0)
       true 5 [[]; []; []] = Some poses /\
     run_trace (fun pts => pts) (fun _ _ => mkIcpResult (translate (mkV3 5 0 0)) 1 0)
       true 5 [[]; []; []] = Some tr /\
     (1 <= 2 < length poses)%nat /\
     (norm3 (vsub (trans (nth 2 poses eye4)) (trans (nth 1 poses eye4)))
        <= 3 * expected_motion \/
      (snd (nth 1 tr (eye4, 0)) = 0 /\
       nth 2 poses eye4 = motion_fallback (nth 1 poses eye4) (Some (nth 0 poses eye4))))) /\
  (exists st st' P k f r,
     icp_reachable (fun pts => pts) (fun _ _ => mkIcpResult (translate (mkV3 5 0 0)) 1 0) st /\
     op_frame_count st = 1%nat /\
     icp_on_event (fun pts => pts) (fun _ _ => mkIcpResult (translate (mkV3 5 0 0)) 1 0) st
       (Input "pointcloud" [4; 5; 6]) =
       Some (st', [("pose"%string, flatten4 P); ("odometry_status"%string, [k; f; r])],
             CONTINUE) /\
     (norm3 (vsub (trans P) (trans (op_prev st))) <= 3 * expected_motion \/
      (f = 0 /\ P = motion_fallback (op_prev st) (hd_error (op_older st))))).
Proof.
  set (pre := fun pts : list V3 => pts).
  set (reg := fun _ _ : list V3 => mkIcpResult (translate (mkV3 5 0 0)) 1 0).
  assert (Hreg : forall a b, reg a b = mkIcpResult (translate (mkV3 5 0 0)) 1 0)
    by reflexivity.
  destruct (icp_jump_bounded_unless_fallback pre reg) as [Hseq Hop].
  split.
  - assert (Et : run_trace pre reg true 5 [[]; []; []] =
                 Some [(eye4, 0); (motion_fallback eye4 (Some eye4), 0)]).
    { unfold run_trace.
      rewrite (seq_frames_cons pre reg true 5 1 (mkSeqState eye4 [] [[]]) [] [[]] [])
        by reflexivity.
      cbv zeta. cbn [seq_prev seq_older seq_world]. rewrite !Hreg.
      cbn [transformation fitness]. rewrite icp_iteration_reject_5.
      cbn [fst hd_error motion_fallback map].
      rewrite (seq_frames_cons pre reg true 5 2 (mkSeqState eye4 [eye4] ([[]] ++ [[]])) [] [] [])
        by reflexivity.
      cbv zeta. cbn [seq_prev seq_older seq_world]. rewrite !Hreg.
      cbn [transformation fitness]. rewrite icp_iteration_reject_5.
      reflexivity. }
    assert (Ep : run_on_sequence pre reg true 5 [[]; []; []] =
                 Some [eye4; eye4; motion_fallback eye4 (Some eye4)]).
    { unfold run_on_sequence. cbv iota. rewrite Et. reflexivity. }
    exists [eye4; eye4; motion_fallback eye4 (Some eye4)],
           [(eye4, 0); (motion_fallback eye4 (Some eye4), 0)].
    assert (L : (1 <= 2 < length [eye4; eye4; motion_fallback eye4 (Some eye4)])%nat)
      by (simpl; lia).
    split; [exact Ep|]. split; [exact Et|]. split; [exact L|].
    exact (Hseq true 5%Z [[]; []; []] _ _ 2%nat Ep Et L).
  - assert (R1 : icp_reachable pre reg (mkOpState eye4 [] [[mkV3 1 2 3]] 1)).
    { eapply (icp_reach_step _ _ op_init (Input "pointcloud" [1; 2; 3]));
      [apply icp_reach_init | reflexivity]. }
    assert (E2 : exists st', icp_on_event pre reg (mkOpState eye4 [] [[mkV3 1 2 3]] 1)
                   (Input "pointcloud" [4; 5; 6]) =
                 Some (st', [("pose"%string, flatten4 eye4);
                             ("odometry_status"%string, [INR 2 - 1; 0; 0])], CONTINUE)).
    { unfold icp_on_event, register_frame. simpl String.eqb. cbv iota.
      cbn [reshape3 option_map op_frame_count op_world op_prev op_older].
      cbv iota. cbn [skipn op_window_size Nat.sub map].
      rewrite op_validate_eq. rewrite !Hreg. cbn [transformation fitness inlier_rmse].
      rewrite icp_iteration_reject_5. cbn [hd_error motion_fallback].
      eexists. reflexivity. }
    destruct E2 as [st' E2].
    exists (mkOpState eye4 [] [[mkV3 1 2 3]] 1), st', eye4, (INR 2 - 1), 0, 0.
    split; [exact R1|]. split; [reflexivity|]. split; [exact E2|].
    exact (Hop _ _ _ _ _ _ _ R1 E2).
Defined.

(** ** Loop candidates *)

Lemma in_sorted_ids (d : PoseDict) (k : Z) : In k (sorted_ids d) <-> In k (map fst d).
Proof.
  pose proof (sortZ_perm (map fst d)) as P. unfold sorted_ids.
  split; apply Permutation_in; [exact P | apply Permutation_sym, P].
Qed.

Lemma candidate_test_in thr gap poses i j a b :
  In (a, b) (candidate_test thr gap poses i j) <->
  a = i /\ b = j /\ (gap <= j - i)%Z /\
  norm3 (vsub (position poses i) (position poses j)) < thr.
Proof.
  unfold candidate_test.
  destruct (Z.ltb_spec (j - i) gap) as [Hg|Hg].
  - simpl. split; [tauto | lia].
  - cbv zeta. destruct (Rlt_dec _ _) as [Hd|Hd]; simpl.
    + split.
      * intros [E|[]]. injection E as -> ->. auto.
      * intros (-> & -> & _). auto.
    + split; [tauto | intros (_ & _ & _ & H); contradiction].
Qed.

(** C5. For a minimum frame gap of at least 1 (the default is 50), the
    candidates of [detect_candidates] are exactly the pairs [(a, b)] of pose
    ids with [b - a >= min_frame_gap] (hence [b > a]) whose translations are
    strictly closer than [distance_threshold]. *)
Theorem loop_candidates_exact (thr : R) (gap : Z) (poses : PoseDict) (a b : Z) :
  (1 <= gap)%Z ->
  In (a, b) (detect_candidates thr gap poses) <->
  In a (map fst poses) /\ In b (map fst poses) /\ (a < b)%Z /\ (gap <= b - a)%Z /\
  norm3 (vsub (trans (dict_get poses a)) (trans (dict_get poses b))) < thr.
Proof.
  intros Hgap. unfold detect_candidates. cbv zeta.
  rewrite in_flat_map. split.
  - intros (i & Hi & H). rewrite in_flat_map in H. destruct H as (j & Hj & H).
    apply candidate_test_in in H as (-> & -> & Hg & Hd).
    rewrite in_sorted_ids in Hi, Hj.
    repeat split; auto; lia.
  - intros (Ha & Hb & _ & Hg & Hd). exists a.
    split; [apply in_sorted_ids; exact Ha|].
    apply in_flat_map. exists b. split; [apply in_sorted_ids; exact Hb|].
    apply candidate_test_in. auto.
Qed.

Lemma loop_candidates_exact_witness :
  (1 <= default_min_frame_gap)%Z /\
  (In (0%Z, 60%Z) (detect_candidates default_distance_threshold default_min_frame_gap
                     [(0%Z, eye4); (60%Z, eye4)]) <->
   In 0%Z (map fst [(0%Z, eye4); (60%Z, eye4)]) /\
   In 60%Z (map fst [(0%Z, eye4); (60%Z, eye4)]) /\ (0 < 60)%Z /\
   (default_min_frame_gap <= 60 - 0)%Z /\
   norm3 (vsub (trans (dict_get [(0%Z, eye4); (60%Z, eye4)] 0))
               (trans (dict_get [(0%Z, eye4); (60%Z, eye4)] 60)))
   < default_distance_threshold).
Proof.
  assert (H : (1 <= default_min_frame_gap)%Z) by (unfold default_min_frame_gap; lia).
  split; [exact H|].
  exact (loop_candidates_exact default_distance_threshold default_min_frame_gap
           [(0%Z, eye4); (60%Z, eye4)] 0 60 H).
Defined.

(** ** Pose graph built from odometry *)

Lemma chain_fold (Pose3 : Type) (m2p : Mat4 -> Pose3) (inv : Mat4 -> Mat4)
    (P : list Mat4) (st : PGState Pose3) (k : nat) :
  (forall j, (1 <= j)%nat -> ~ In (Z.of_nat j) (pose_ids st)) ->
  fold_left (chain_step Pose3 m2p inv P) (seq 1 k) st =
  mkPGState Pose3
    (graph st ++ map (fun i => BetweenFactorPose3 Pose3 (Z.of_nat (i - 1)) (Z.of_nat i)
                         (m2p (matmul4 (inv (nth (i - 1) P eye4)) (nth i P eye4))))
                  (seq 1 k))
    (initial_estimates st ++ map (fun i => (Z.of_nat i, m2p (nth i P eye4))) (seq 1 k))
    (pose_ids st ++ map Z.of_nat (seq 1 k))
    (n_odom_factors st + k) (n_loop_factors st).
Proof.
  intros Hfresh. induction k as [|k IH].
  - destruct st; simpl. rewrite !app_nil_r, Nat.add_0_r. reflexivity.
  - rewrite seq_S, fold_left_app, IH. simpl fold_left.
    unfold chain_step, add_odometry_factor, add_initial_estimate. cbn [pose_ids graph
      initial_estimates n_odom_factors n_loop_factors].
    destruct (existsb _ _) eqn:E.
    + exfalso. apply existsb_exists in E as (x & Hx & Hxe).
      apply Z.eqb_eq in Hxe. subst x. apply in_app_or in Hx as [Hx|Hx].
      * apply (Hfresh (1 + k)%nat); [lia | exact Hx].
      * apply in_map_iff in Hx as (j & Hj & Hjin). apply in_seq in Hjin. lia.
    + rewrite !map_app, !app_assoc, Nat.add_succ_r. reflexivity.
Qed.

(** C9. On a fresh optimizer, [build_from_odometry] on no poses returns an
    empty dictionary and adds nothing; on poses [P_0 .. P_(N-1)], N >= 1,
    the factor graph is exactly one prior factor on vertex 0 (pose [P_0])
    followed by the N-1 between factors [i-1 -> i] carrying
    [inv(P_(i-1)) @ P_i], the initial estimates are [P_i] for every vertex
    [i] in [0 .. N-1], the tracked ids are exactly [0 .. N-1], the odometry
    counter is N-1, no loop factor is counted, and the result is the
    optimisation of that graph. *)
Theorem build_from_odometry_chain (Pose3 : Type) (m2p : Mat4 -> Pose3)
    (inv : Mat4 -> Mat4) (optimize : PGState Pose3 -> list (Z * Mat4)) :
  build_from_odometry Pose3 m2p inv optimize [] (pg_init Pose3) = (pg_init Pose3, []) /\
  forall (P0 : Mat4) (rest : list Mat4),
  let P := P0 :: rest in
  let N := length P in
  let r := build_from_odometry Pose3 m2p inv optimize P (pg_init Pose3) in
  graph (fst r) =
    PriorFactorPose3 Pose3 0 (m2p P0) ::
    map (fun i => BetweenFactorPose3 Pose3 (Z.of_nat (i - 1)) (Z.of_nat i)
                    (m2p (matmul4 (inv (nth (i - 1) P eye4)) (nth i P eye4))))
        (seq 1 (N - 1)) /\
  initial_estimates (fst r) = map (fun i => (Z.of_nat i, m2p (nth i P eye4))) (seq 0 N) /\
  pose_ids (fst r) = map Z.of_nat (seq 0 N) /\
  n_odom_factors (fst r) = (N - 1)%nat /\
  n_loop_factors (fst r) = 0%nat /\
  snd r = optimize (fst r).
Proof.
  split; [reflexivity|].
  intros P0 rest P N r.
  assert (Hr : fst r =
    fold_left (chain_step Pose3 m2p inv P) (seq 1 (N - 1))
      (mkPGState Pose3 [PriorFactorPose3 Pose3 0 (m2p P0)] [(0%Z, m2p P0)] [0%Z] 0 0)
    /\ snd r = optimize (fst r)) by (split; reflexivity).
  destruct Hr as [Hr Hs].
  cut (graph (fst r) =
    PriorFactorPose3 Pose3 0 (m2p P0) ::
    map (fun i => BetweenFactorPose3 Pose3 (Z.of_nat (i - 1)) (Z.of_nat i)
                    (m2p (matmul4 (inv (nth (i - 1) P eye4)) (nth i P eye4))))
        (seq 1 (N - 1)) /\
    initial_estimates (fst r) = map (fun i => (Z.of_nat i, m2p (nth i P eye4))) (seq 0 N) /\
    pose_ids (fst r) = map Z.of_nat (seq 0 N) /\
    n_odom_factors (fst r) = (N - 1)%nat /\
    n_loop_factors (fst r) = 0%nat).
  { intros (H1 & H2 & H3 & H4 & H5). auto 6. }
  rewrite Hr, chain_fold.
  2: { intros j Hj Hin. simpl in Hin. destruct Hin as [Hin|[]]. lia. }
  cbn [graph initial_estimates pose_ids n_odom_factors n_loop_factors].
  replace (seq 0 N) with (0%nat :: seq 1 (N - 1))
    by (unfold N, P; simpl; rewrite Nat.sub_0_r; reflexivity).
  repeat split; reflexivity.
Qed.

(** ** Scan Context descriptor and similarity *)

Lemma descriptor_fold_bin (cfg : ScanContextConfig) (points : list V3) :
  forall (d : Descriptor) (r a : Z),
  fold_left (fun descriptor p =>
    let r := range_idx cfg p in
    let a := angle_idx cfg p in
    desc_set descriptor r a (Rmax (descriptor r a) (vz p))) points d r a =
  fold_left Rmax (map vz (filter (in_bin cfg r a) points)) (d r a).
Proof.
  induction points as [|p t IH]; intros d r a; [reflexivity|].
  simpl fold_left. rewrite IH. unfold desc_set at 1. simpl filter.
  unfold in_bin at 2. rewrite (Z.eqb_sym r), (Z.eqb_sym a).
  destruct (Z.eqb (range_idx cfg p) r) eqn:E1, (Z.eqb (angle_idx cfg p) a) eqn:E2;
    simpl; try reflexivity.
  apply Z.eqb_eq in E1, E2. subst. reflexivity.
Qed.

Lemma compute_descriptor_bin (cfg : ScanContextConfig) (points : list V3) (r a : Z) :
  compute_descriptor cfg points r a =
  fold_left Rmax (map vz (filter (in_bin cfg r a) points)) 0.
Proof. unfold compute_descriptor. rewrite descriptor_fold_bin. reflexivity. Qed.

(** Each bin [(r, a)] of the Scan Context descriptor is the maximum of 0
    and the z coordinates of the points whose clipped (range, angle)
    indices are [(r, a)] (the descriptor starts from [np.zeros]): an empty
    bin is 0, and a bin whose points all have z <= 0 is 0. *)
Theorem scan_context_bin_max (cfg : ScanContextConfig) (points : list V3) (r a : Z) :
  compute_descriptor cfg points r a =
  fold_left Rmax (map vz (filter (in_bin cfg r a) points)) 0 /\
  ((forall p, In p points -> in_bin cfg r a p = true -> vz p <= 0) ->
   compute_descriptor cfg points r a = 0).
Proof.
  split; [apply compute_descriptor_bin|].
  intros Hneg. rewrite compute_descriptor_bin.
  destruct (fold_left_Rmax_in (map vz (filter (in_bin cfg r a) points)) 0) as [E|Hin];
    [exact E|].
  destruct (fold_left_Rmax_ge (map vz (filter (in_bin cfg r a) points)) 0) as [Hge _].
  apply in_map_iff in Hin as (p & Ep & Hp). apply filter_In in Hp as [Hp Hb].
  specialize (Hneg p Hp Hb). lra.
Qed.

(** C6: the descriptor does not keep the maximum z of a bin whose points
    are all below the sensor.  A ground point 10 m ahead at z = -1.5 (the
    ground lies at about -1.5 m in the sensor frame) falls in its bin, but
    the bin holds 0, the [np.zeros] initial value, not -1.5; the scan made
    of this point has the descriptor of an empty scan. *)
Lemma scan_context_negative_bin :
  let p := mkV3 10 0 (-1.5) in
  let cfg := default_scan_context_config in
  compute_descriptor cfg [p] (range_idx cfg p) (angle_idx cfg p) = 0 /\
  filter (in_bin cfg (range_idx cfg p) (angle_idx cfg p)) [p] = [p] /\
  compute_descriptor cfg [p] (range_idx cfg p) (angle_idx cfg p) <> vz p /\
  (forall r a, compute_descriptor cfg [p] r a = compute_descriptor cfg [] r a).
Proof.
  intros p cfg.
  assert (Hb : in_bin cfg (range_idx cfg p) (angle_idx cfg p) p = true)
    by (unfold in_bin; rewrite !Z.eqb_refl; reflexivity).
  assert (E : compute_descriptor cfg [p] (range_idx cfg p) (angle_idx cfg p) = 0).
  { unfold compute_descriptor. simpl. unfold desc_set. rewrite !Z.eqb_refl. simpl.
    unfold np_zeros, p. simpl. apply Rmax_left. lra. }
  split; [exact E|]. split; [|split].
  - simpl. rewrite Hb. reflexivity.
  - rewrite E. unfold p. simpl. lra.
  - intros r a. unfold compute_descriptor. simpl. unfold desc_set, np_zeros.
    destruct (_ && _)%bool; [|reflexivity].
    apply Rmax_left. unfold p. simpl. lra.
Qed.

Lemma cell_sum_nonneg (L : list (Z * Z)) (f : Z -> Z -> R) :
  (forall c, In c L -> 0 <= f (fst c) (snd c)) ->
  0 <= fold_right (fun c acc => f (fst c) (snd c) + acc) 0 L.
Proof.
  induction L as [|c t IH]; intros H; simpl; [lra|].
  assert (H1 := H c (or_introl eq_refl)).
  assert (H2 : 0 <= fold_right (fun c acc => f (fst c) (snd c) + acc) 0 t)
    by (apply IH; intros; apply H; right; assumption).
  lra.
Qed.

Lemma cell_sum_zero_inv (L : list (Z * Z)) (f : Z -> Z -> R) :
  (forall c, In c L -> 0 <= f (fst c) (snd c)) ->
  fold_right (fun c acc => f (fst c) (snd c) + acc) 0 L = 0 ->
  forall c, In c L -> f (fst c) (snd c) = 0.
Proof.
  induction L as [|c0 t IH]; intros H E c Hc; [destruct Hc|].
  simpl in E.
  assert (H1 := H c0 (or_introl eq_refl)).
  assert (H2 : 0 <= fold_right (fun c acc => f (fst c) (snd c) + acc) 0 t)
    by (apply cell_sum_nonneg; intros; apply H; right; assumption).
  destruct Hc as [<-|Hc]; [lra|].
  apply IH; auto; [intros; apply H; right; assumption | lra].
Qed.

Lemma cell_sum_zero (L : list (Z * Z)) (f : Z -> Z -> R) :
  (forall c, In c L -> f (fst c) (snd c) = 0) ->
  fold_right (fun c acc => f (fst c) (snd c) + acc) 0 L = 0.
Proof.
  induction L as [|c t IH]; intros H; simpl; [reflexivity|].
  rewrite H by (left; reflexivity). rewrite IH; [ring|].
  intros; apply H; right; assumption.
Qed.

Lemma cell_sum_cauchy_schwarz (L : list (Z * Z)) (u v : Z -> Z -> R) :
  let S := fold_right (fun c acc => u (fst c) (snd c) * v (fst c) (snd c) + acc) 0 L in
  let A := fold_right (fun c acc => u (fst c) (snd c) * u (fst c) (snd c) + acc) 0 L in
  let B := fold_right (fun c acc => v (fst c) (snd c) * v (fst c) (snd c) + acc) 0 L in
  S * S <= A * B.
Proof.
  induction L as [|c t IH]; cbv zeta in *; simpl; [lra|].
  set (a := u (fst c) (snd c)). set (b := v (fst c) (snd c)).
  set (S := fold_right (fun c acc => u (fst c) (snd c) * v (fst c) (snd c) + acc) 0 t) in *.
  set (A := fold_right (fun c acc => u (fst c) (snd c) * u (fst c) (snd c) + acc) 0 t) in *.
  set (B := fold_right (fun c acc => v (fst c) (snd c) * v (fst c) (snd c) + acc) 0 t) in *.
  assert (HA : 0 <= A)
    by (unfold A; apply (cell_sum_nonneg t (fun x y => u x y * u x y)); intros; apply Rle_0_sqr).
  assert (HB : 0 <= B)
    by (unfold B; apply (cell_sum_nonneg t (fun x y => v x y * v x y)); intros; apply Rle_0_sqr).
  assert (Cross : 2 * a * b * S <= a * a * B + b * b * A).
  { destruct (Req_dec A 0) as [A0|A0].
    - assert (S0 : S = 0) by (rewrite A0 in IH; nra). rewrite S0, A0. nra.
    - assert (Key : A * (a * a * B + b * b * A - 2 * a * b * S)
                    = (b * A - a * S) * (b * A - a * S) + a * a * (A * B - S * S)) by ring.
      assert (P : 0 <= A * (a * a * B + b * b * A - 2 * a * b * S)).
      { rewrite Key. apply Rplus_le_le_0_compat; [apply Rle_0_sqr|].
        apply Rmult_le_pos; [apply Rle_0_sqr | lra]. }
      assert (Apos : 0 < A) by lra.
      assert (0 <= a * a * B + b * b * A - 2 * a * b * S); [|lra].
      apply (Rmult_le_reg_l A); [exact Apos|]. lra. }
  nra.
Qed.


Lemma in_axis_ids (n x : Z) : In x (axis_ids n) <-> (0 <= x < n)%Z.
Proof.
  unfold axis_ids. rewrite in_map_iff. split.
  - intros (k & <- & Hk). apply in_seq in Hk. lia.
  - intros Hx. exists (Z.to_nat x). split; [lia|]. apply in_seq. lia.
Qed.

Lemma in_cells (nr ns r a : Z) :
  In (r, a) (cells nr ns) <-> In r (axis_ids nr) /\ In a (axis_ids ns).
Proof.
  unfold cells. rewrite in_flat_map. split.
  - intros (r' & Hr & Ha). apply in_map_iff in Ha as (a' & E & Ha).
    injection E as -> ->. auto.
  - intros [Hr Ha]. exists r. split; [exact Hr|]. apply in_map_iff. eauto.
Qed.

Lemma compute_descriptor_nonneg (cfg : ScanContextConfig) (points : list V3) (r a : Z) :
  0 <= compute_descriptor cfg points r a.
Proof.
  rewrite compute_descriptor_bin.
  destruct (fold_left_Rmax_ge (map vz (filter (in_bin cfg r a) points)) 0) as [H _].
  exact H.
Qed.

Lemma cosine_bounds (nr ns : Z) (d e : Descriptor) :
  (forall r a, 0 <= d r a) -> (forall r a, 0 <= e r a) ->
  0 < fro_norm nr ns d -> 0 < fro_norm nr ns e ->
  0 <= cosine nr ns d e <= 1.
Proof.
  intros Hd He Hnd Hne. unfold cosine.
  set (S := np_sum nr ns (fun r a => d r a * e r a)).
  assert (HS : 0 <= S).
  { unfold S, np_sum. apply (cell_sum_nonneg (cells nr ns) (fun r a => d r a * e r a)).
    intros. apply Rmult_le_pos; auto. }
  assert (HA : 0 <= np_sum nr ns (fun r a => d r a * d r a))
    by (apply (cell_sum_nonneg (cells nr ns) (fun r a => d r a * d r a));
        intros; apply Rle_0_sqr).
  assert (HB : 0 <= np_sum nr ns (fun r a => e r a * e r a))
    by (apply (cell_sum_nonneg (cells nr ns) (fun r a => e r a * e r a));
        intros; apply Rle_0_sqr).
  assert (CS : S * S <= np_sum nr ns (fun r a => d r a * d r a) *
                        np_sum nr ns (fun r a => e r a * e r a))
    by apply (cell_sum_cauchy_schwarz (cells nr ns) d e).
  set (P := fro_norm nr ns d * fro_norm nr ns e).
  assert (HP : 0 < P) by (apply Rmult_lt_0_compat; assumption).
  assert (SP : S <= P).
  { unfold P, fro_norm. rewrite <- sqrt_mult_alt by exact HA.
    rewrite <- (sqrt_square S HS). apply sqrt_le_1_alt. exact CS. }
  split.
  - apply Rmult_le_pos; [exact HS | left; apply Rinv_0_lt_compat, HP].
  - apply (Rmult_le_reg_r P); [exact HP|]. unfold Rdiv.
    rewrite Rmult_assoc, Rinv_l, Rmult_1_r by lra. lra.
Qed.

Lemma fold_left_unit_interval {A} (g : R -> A -> R) (l : list A) (b : R) :
  (forall best x, 0 <= best <= 1 -> 0 <= g best x <= 1) ->
  0 <= b <= 1 -> 0 <= fold_left g l b <= 1.
Proof.
  intros Hg. revert b. induction l as [|x t IH]; intros b Hb; simpl; auto.
Qed.

Lemma fold_left_const {A} (g : R -> A -> R) (l : list A) (b : R) :
  (forall best x, In x l -> g best x = best) -> fold_left g l b = b.
Proof.
  revert b. induction l as [|x t IH]; intros b Hg; simpl; [reflexivity|].
  rewrite Hg by (left; reflexivity). apply IH. intros; apply Hg; right; assumption.
Qed.

Lemma fro_norm_zero_entries (nr ns : Z) (d : Descriptor) :
  fro_norm nr ns d = 0 -> forall r a, (0 <= r < nr)%Z -> (0 <= a < ns)%Z -> d r a = 0.
Proof.
  intros Z0 r a Hr Ha. unfold fro_norm in Z0.
  apply sqrt_eq_0 in Z0;
    [|apply (cell_sum_nonneg (cells nr ns) (fun r a => d r a * d r a)); intros; apply Rle_0_sqr].
  assert (Hc : In (r, a) (cells nr ns)) by (apply in_cells; rewrite !in_axis_ids; auto).
  pose proof (cell_sum_zero_inv (cells nr ns) (fun r a => d r a * d r a)
                ltac:(intros; apply Rle_0_sqr) Z0 (r, a) Hc) as E.
  simpl in E. apply Rmult_integral in E as [E|E]; exact E.
Qed.

Lemma fro_norm_roll_zero (nr ns : Z) (d : Descriptor) (shift : Z) :
  (0 < ns)%Z -> fro_norm nr ns d = 0 -> fro_norm nr ns (np_roll ns d shift) = 0.
Proof.
  intros Hns Z0. unfold fro_norm. rewrite <- sqrt_0. f_equal.
  apply (cell_sum_zero (cells nr ns)
           (fun r a => np_roll ns d shift r a * np_roll ns d shift r a)).
  intros [r a] Hc. simpl.
  apply in_cells in Hc as [Hr Ha]. rewrite in_axis_ids in Hr, Ha.
  unfold np_roll. rewrite (fro_norm_zero_entries nr ns d Z0 r); [ring | exact Hr|].
  apply Z.mod_pos_bound. exact Hns.
Qed.

(** C10. For descriptors produced by [compute_descriptor], every entry is
    non-negative, every cyclic-shift cosine similarity taken by
    [_compute_similarity] (both norms positive) lies in [0, 1], the returned
    similarity lies in [0, 1], and it is 0 when either descriptor has zero
    norm. *)
Theorem scan_context_similarity_unit (cfg : ScanContextConfig) (pts1 pts2 : list V3) :
  let d1 := compute_descriptor cfg pts1 in
  let d2 := compute_descriptor cfg pts2 in
  let nr := num_rings cfg in
  let ns := num_sectors cfg in
  (forall r a, 0 <= d1 r a /\ 0 <= d2 r a) /\
  (forall shift, 0 < fro_norm nr ns d1 -> 0 < fro_norm nr ns (np_roll ns d2 shift) ->
     0 <= cosine nr ns d1 (np_roll ns d2 shift) <= 1) /\
  0 <= compute_similarity cfg d1 d2 <= 1 /\
  (fro_norm nr ns d1 = 0 \/ fro_norm nr ns d2 = 0 -> compute_similarity cfg d1 d2 = 0).
Proof.
  intros d1 d2 nr ns.
  assert (N1 : forall r a, 0 <= d1 r a) by (intros; apply compute_descriptor_nonneg).
  assert (N2 : forall r a, 0 <= d2 r a) by (intros; apply compute_descriptor_nonneg).
  assert (Cos : forall shift, 0 < fro_norm nr ns d1 ->
                  0 < fro_norm nr ns (np_roll ns d2 shift) ->
                  0 <= cosine nr ns d1 (np_roll ns d2 shift) <= 1).
  { intros shift H1 H2. apply cosine_bounds; auto. intros; apply N2. }
  split; [auto|]. split; [exact Cos|]. split.
  - unfold compute_similarity. apply fold_left_unit_interval; [|lra].
    intros best x Hb. cbv zeta.
    destruct (Rlt_dec 0 _) as [H1|H1]; [|exact Hb].
    destruct (Rlt_dec 0 _) as [H2|H2]; [|exact Hb].
    specialize (Cos (Z.of_nat x) H1 H2). fold nr ns.
    apply Rmax_case; lra.
  - intros Hz. unfold compute_similarity. apply fold_left_const.
    intros best x Hx. cbv zeta.
    destruct Hz as [Hz|Hz].
    + fold nr ns. rewrite Hz. destruct (Rlt_dec 0 0); [lra | reflexivity].
    + apply in_seq in Hx.
      fold nr ns. rewrite (fro_norm_roll_zero nr ns d2); [|lia | exact Hz].
      destruct (Rlt_dec 0 _); [|reflexivity].
      destruct (Rlt_dec 0 0); [lra | reflexivity].
Qed.

(* ================================================================== *)
(** * Further properties of the same code *)

(** ** ICP odometry operator *)

(** [reshape(-1, 3)] inverts the row-major flattening of a point list. *)
Theorem reshape3_flatten (pts : list V3) :
  reshape3 (flat_map (fun p => [vx p; vy p; vz p]) pts) = Some pts.
Proof.
  induction pts as [|p t IH]; [reflexivity|].
  simpl. rewrite IH. destruct p; reflexivity.
Qed.

Lemma reshape3_length (l : list R) (pts : list V3) :
  reshape3 l = Some pts -> length l = (3 * length pts)%nat.
Proof.
  revert pts. induction l as [l IH] using (induction_ltof1 _ (@length R)).
  unfold ltof in IH. intros pts E.
  destruct l as [|a [|b [|c t]]]; simpl in E; try discriminate.
  - injection E as <-. reflexivity.
  - destruct (reshape3 t) as [q|] eqn:Et; simpl in E; [|discriminate].
    injection E as <-. specialize (IH t ltac:(simpl; lia) q Et). simpl. lia.
Qed.

Lemma reshape3_some (l : list R) :
  Nat.modulo (length l) 3 = O -> exists pts, reshape3 l = Some pts.
Proof.
  induction l as [l IH] using (induction_ltof1 _ (@length R)).
  unfold ltof in IH. intros Hm.
  destruct l as [|a [|b [|c t]]].
  - exists []. reflexivity.
  - discriminate.
  - discriminate.
  - replace (length (a :: b :: c :: t)) with (length t + 1 * 3)%nat in Hm by (simpl; lia).
    rewrite Nat.Div0.mod_add in Hm.
    destruct (IH t ltac:(simpl; lia) Hm) as [q Eq].
    simpl. rewrite Eq. simpl. eauto.
Qed.

(** A non-empty ["pointcloud"] input whose length is not a multiple of 3
    makes [on_event] raise (numpy's reshape fails); any other non-empty
    input is processed. *)
Theorem icp_pointcloud_reshape_error pre reg (st : OpState) (value : list R) :
  value <> [] ->
  (icp_on_event pre reg st (Input "pointcloud" value) = None <->
   Nat.modulo (length value) 3 <> O).
Proof.
  intros Hne. unfold icp_on_event. simpl String.eqb. cbv iota.
  destruct value as [|v vs]; [contradiction|].
  split.
  - intros E Hm. destruct (reshape3_some (v :: vs) Hm) as [pts Ep].
    rewrite Ep in E. destruct (register_frame _ _ _ _) as [st' [[? ?] ?]]. discriminate.
  - intros Hm. destruct (reshape3 (v :: vs)) as [pts|] eqn:Ep; [|reflexivity].
    exfalso. apply Hm. rewrite (reshape3_length _ _ Ep).
    rewrite Nat.mul_comm, Nat.Div0.mod_mul. reflexivity.
Qed.

Lemma icp_pointcloud_reshape_error_witness :
  [1; 2; 3; 4] <> [] /\
  (icp_on_event (fun p => p) (fun _ _ => mkIcpResult eye4 1 0) op_init
     (Input "pointcloud" [1; 2; 3; 4]) = None <->
   Nat.modulo (length [1; 2; 3; 4]) 3 <> O).
Proof.
  assert (H : [1; 2; 3; 4] <> []) by discriminate.
  split; [exact H | exact (icp_pointcloud_reshape_error _ _ op_init _ H)].
Defined.


(** Along any run of [on_event] from [__init__], after [n] processed frames
    [self.world_clouds] holds [n] clouds and [self.poses] holds [max(1, n)]
    poses: the first frame adds no pose, each later frame adds one; before
    the first frame the only pose is the identity. *)
Theorem icp_reachable_bookkeeping pre reg st :
  icp_reachable pre reg st ->
  length (op_world st) = op_frame_count st /\
  length (op_prev st :: op_older st) = Nat.max 1 (op_frame_count st) /\
  (op_frame_count st = O -> op_prev st = eye4 /\ op_older st = []).
Proof.
  intros H. destruct (icp_inv_reachable _ _ _ H) as [Hw [Ho Hz]].
  split; [exact Hw|]. split; [|exact Hz].
  simpl length. rewrite Ho. lia.
Qed.

Lemma icp_reachable_bookkeeping_witness :
  exists st,
    icp_reachable (fun pts => pts) (fun _ _ => mkIcpResult (translate (mkV3 5 0 0)) 1 0) st /\
    op_frame_count st = 2%nat /\
    (length (op_world st) = op_frame_count st /\
     length (op_prev st :: op_older st) = Nat.max 1 (op_frame_count st) /\
     (op_frame_count st = O -> op_prev st = eye4 /\ op_older st = [])).
Proof.
  set (pre := fun pts : list V3 => pts).
  set (reg := fun _ _ : list V3 => mkIcpResult (translate (mkV3 5 0 0)) 1 0).
  assert (Hreg : forall a b, reg a b = mkIcpResult (translate (mkV3 5 0 0)) 1 0)
    by reflexivity.
  assert (R1 : icp_reachable pre reg (mkOpState eye4 [] [[mkV3 1 2 3]] 1)).
  { eapply (icp_reach_step _ _ op_init (Input "pointcloud" [1; 2; 3]));
      [apply icp_reach_init | reflexivity]. }
  assert (E2 : exists st' outs,
             icp_on_event pre reg (mkOpState eye4 [] [[mkV3 1 2 3]] 1)
               (Input "pointcloud" [4; 5; 6]) = Some (st', outs, CONTINUE) /\
             op_frame_count st' = 2%nat).
  { unfold icp_on_event, register_frame. simpl String.eqb. cbv iota.
    cbn [reshape3 option_map op_frame_count op_world op_prev op_older].
    cbv iota. cbn [skipn op_window_size Nat.sub map].
    rewrite op_validate_eq, !Hreg. cbn [transformation fitness inlier_rmse].
    rewrite icp_iteration_reject_5.
    eexists; eexists; split; reflexivity. }
  destruct E2 as (st2 & outs & E2 & C2).
  assert (R2 : icp_reachable pre reg st2) by exact (icp_reach_step _ _ _ _ _ _ _ R1 E2).
  exists st2. split; [exact R2|]. split; [exact C2|].
  exact (icp_reachable_bookkeeping _ _ _ R2).
Defined.

(** On a reachable state, a well-formed non-empty point cloud is always
    registered: the operator publishes as ["pose"] exactly the pose it
    stores as [self.poses[-1]], reports as frame index the number of frames
    processed before, counts one more frame, stores one more world cloud,
    and pushes the previous pose onto its history (except on the first
    frame, whose pose is the identity already stored). *)
Theorem icp_pointcloud_publishes_stored_pose pre reg st (pts : list V3) :
  icp_reachable pre reg st -> pts <> [] ->
  exists st' fit rmse,
    icp_on_event pre reg st
      (Input "pointcloud" (flat_map (fun p => [vx p; vy p; vz p]) pts)) =
      Some (st', [("pose"%string, flatten4 (op_prev st'));
                  ("odometry_status"%string, [INR (op_frame_count st); fit; rmse])],
            CONTINUE) /\
    op_frame_count st' = S (op_frame_count st) /\
    length (op_world st') = S (length (op_world st)) /\
    op_older st' = match op_frame_count st with
                   | O => []
                   | S _ => op_prev st :: op_older st
                   end.
Proof.
  intros Hr Hne. destruct (icp_inv_reachable _ _ _ Hr) as [Hw [Ho Hz]].
  destruct pts as [|p ps]; [contradiction|].
  pose proof (reshape3_flatten (p :: ps)) as Hre.
  unfold icp_on_event. simpl String.eqb. cbv iota.
  destruct (flat_map _ (p :: ps)) as [|v vs] eqn:Ev; [discriminate|].
  rewrite Hre.
  destruct st as [prev older world cnt]. simpl in Hw, Ho, Hz |- *.
  destruct cnt as [|n].
  - destruct (Hz eq_refl) as [-> ->]. unfold register_frame. simpl op_frame_count.
    cbv iota beta. exists (mkOpState eye4 [] (world ++ [p :: ps]) 1), 1, 0.
    simpl. rewrite length_app. simpl.
    replace (1 - 1) with 0 by ring. split; [reflexivity|]. split; [reflexivity|].
    split; [lia|reflexivity].
  - unfold register_frame. simpl op_frame_count. cbv iota beta.
    destruct (map decimate _) as [|m ms] eqn:Em.
    + exfalso. apply (f_equal (@length _)) in Em.
      rewrite length_map, length_skipn in Em. simpl in Em. unfold op_window_size in Em. lia.
    + destruct (op_validate _ _ _ _) as [T f].
      eexists (mkOpState T (prev :: older) _ (S (S n))), f, _.
      cbn [op_frame_count op_prev op_older op_world].
      replace (INR (S (S n)) - 1) with (INR (S n)) by (rewrite (S_INR (S n)); ring).
      split; [reflexivity|]. split; [reflexivity|].
      rewrite length_app. simpl. split; [lia|reflexivity].
Qed.

Lemma icp_pointcloud_publishes_stored_pose_witness :
  icp_reachable (fun p => p) (fun _ _ => mkIcpResult eye4 1 0) op_init /\
  [mkV3 1 2 3] <> [] /\
  exists st' fit rmse,
    icp_on_event (fun p => p) (fun _ _ => mkIcpResult eye4 1 0) op_init
      (Input "pointcloud" (flat_map (fun p => [vx p; vy p; vz p]) [mkV3 1 2 3])) =
      Some (st', [("pose"%string, flatten4 (op_prev st'));
                  ("odometry_status"%string, [INR (op_frame_count op_init); fit; rmse])],
            CONTINUE) /\
    op_frame_count st' = S (op_frame_count op_init) /\
    length (op_world st') = S (length (op_world op_init)) /\
    op_older st' = match op_frame_count op_init with
                   | O => []
                   | S _ => op_prev op_init :: op_older op_init
                   end.
Proof.
  pose proof (icp_reach_init (fun p => p) (fun _ _ => mkIcpResult eye4 1 0)) as H.
  assert (Hne : [mkV3 1 2 3] <> []) by discriminate.
  split; [exact H|]. split; [exact Hne|].
  exact (icp_pointcloud_publishes_stored_pose _ _ _ _ H Hne).
Defined.

(** ** Subsampling of the local map ([pts[::step]]) *)

Lemma stride_from_length_bound {A} (step : nat) (l : list A) :
  (1 <= step)%nat ->
  forall k, (k < step)%nat ->
  (step * length (stride_from step k l) <= length l + step - 1 - k)%nat.
Proof.
  intros Hs. induction l as [|x t IH]; intros k Hk; simpl.
  - lia.
  - destruct k as [|k'].
    + simpl. specialize (IH (Nat.pred step) ltac:(lia)). nia.
    + specialize (IH k' ltac:(lia)). lia.
Qed.

Lemma stride_from_one {A} (l : list A) : stride_from 1 O l = l.
Proof. induction l as [|x t IH]; simpl; [reflexivity|]. rewrite IH. reflexivity. Qed.

Lemma stride_from_incl {A} (step : nat) (l : list A) :
  forall k, incl (stride_from step k l) l.
Proof.
  induction l as [|x t IH]; intros k; simpl; [apply incl_refl|].
  destruct k as [|k'].
  - apply incl_cons; [left; reflexivity|]. apply incl_tl, IH.
  - apply incl_tl, IH.
Qed.

(** [pts[::max(1, len(pts) // 5000)]] keeps a cloud of fewer than 10000
    points unchanged, never returns 10000 points or more, and only returns
    points of the cloud. *)
Theorem decimate_bounds (pts : list V3) :
  (length (decimate pts) < 2 * 5000)%nat /\
  ((length pts < 2 * 5000)%nat -> decimate pts = pts) /\
  incl (decimate pts) pts.
Proof.
  unfold decimate, stride.
  assert (Hq : forall n, (n < 2 * 5000)%nat -> Nat.max 1 (Nat.div n 5000) = 1%nat).
  { intros n Hn. assert (Nat.div n 5000 <= 1)%nat.
    { apply Nat.lt_succ_r, Nat.Div0.div_lt_upper_bound. lia. }
    lia. }
  split; [|split].
  - set (n := length pts).
    destruct (Nat.lt_ge_cases n (2 * 5000)) as [Hn|Hn].
    + rewrite (Hq n Hn), stride_from_one. exact Hn.
    + set (q := Nat.div n 5000).
      assert (Hdm : n = (5000 * q + Nat.modulo n 5000)%nat) by apply Nat.div_mod_eq.
      pose proof (Nat.mod_upper_bound n 5000 ltac:(lia)) as Hr.
      assert (Hq2 : (2 <= q)%nat) by (unfold q; apply Nat.div_le_lower_bound; lia).
      replace (Nat.max 1 q) with q by lia.
      pose proof (stride_from_length_bound q pts ltac:(lia) O ltac:(lia)) as B.
      fold n in B. nia.
  - intros Hn. rewrite (Hq _ Hn). apply stride_from_one.
  - apply stride_from_incl.
Qed.

(** ** The sequence odometry: when it raises *)




(** ** Waypoint extractor: height filter, statistics, trajectory length *)

Lemma insertR_perm (x : R) (l : list R) : Permutation (insertR x l) (x :: l).
Proof.
  induction l as [|y t IH]; simpl; [reflexivity|].
  destruct (Rle_dec x y); [reflexivity|].
  rewrite IH. apply perm_swap.
Qed.

Lemma sortR_perm (l : list R) : Permutation (sortR l) l.
Proof.
  induction l as [|x t IH]; simpl; [reflexivity|].
  rewrite insertR_perm. apply perm_skip, IH.
Qed.

(** For an odd number of positions the median height is the height of one
    of them, and that position passes the filter: with a positive threshold
    [_filter_by_z] never removes every position. *)
Theorem filter_by_z_odd_nonempty (t : R) (positions : list V3) :
  0 < t -> Nat.odd (length positions) = true -> filter_by_z t positions <> [].
Proof.
  intros Ht Hodd. destruct positions as [|q qs]; [discriminate|].
  set (ps := q :: qs) in *.
  assert (Hm : exists p, In p ps /\ vz p = median (map vz ps)).
  { unfold median.
    pose proof (sortR_perm (map vz ps)) as HP.
    set (s := sortR (map vz ps)) in *.
    assert (Hn : length s = length ps) by (rewrite (Permutation_length HP), length_map; reflexivity).
    assert (He : Nat.even (length s) = false).
    { rewrite Hn. unfold Nat.odd in Hodd. destruct (Nat.even (length ps)); [discriminate|reflexivity]. }
    rewrite He.
    assert (Hlt : (length s / 2 < length s)%nat).
    { apply Nat.Div0.div_lt_upper_bound. rewrite Hn. unfold ps. simpl. lia. }
    pose proof (nth_In s 0 Hlt) as Hin.
    apply (Permutation_in _ HP), in_map_iff in Hin.
    destruct Hin as [p [Ep Hp]]. exists p. split; [exact Hp | exact Ep]. }
  destruct Hm as [p [Hp Ep]].
  unfold filter_by_z. fold ps. intros E.
  assert (Hf : In p (filter (fun p0 => if Rlt_dec (Rabs (vz p0 - median (map vz ps))) t
                                       then true else false) ps)).
  { apply filter_In. split; [exact Hp|].
    rewrite Ep. replace (median (map vz ps) - median (map vz ps)) with 0 by ring.
    rewrite Rabs_R0. destruct (Rlt_dec 0 t); [reflexivity | lra]. }
  unfold ps in E, Hf. rewrite E in Hf. destruct Hf.
Qed.

Lemma filter_by_z_odd_nonempty_witness :
  0 < 1 /\ Nat.odd (length [mkV3 0 0 0]) = true /\ filter_by_z 1 [mkV3 0 0 0] <> [].
Proof.
  assert (H1 : 0 < 1) by lra.
  assert (H2 : Nat.odd (length [mkV3 0 0 0]) = true) by reflexivity.
  split; [exact H1|]. split; [exact H2|].
  exact (filter_by_z_odd_nonempty 1 [mkV3 0 0 0] H1 H2).
Defined.

(** With an even number of positions the reference height is the mean of
    the two middle ones: two positions whose heights differ by at least
    twice the threshold are both removed. *)
Theorem filter_by_z_two_far_apart (t : R) (p q : V3) :
  2 * t <= Rabs (vz p - vz q) -> filter_by_z t [p; q] = [].
Proof.
  intros H.
  assert (Hmed : median [vz p; vz q] = (vz p + vz q) / 2).
  { unfold median. simpl. destruct (Rle_dec (vz p) (vz q)); simpl; field. }
  unfold filter_by_z. change (map vz [p; q]) with [vz p; vz q].
  rewrite Hmed. simpl.
  destruct (Rlt_dec (Rabs (vz p - (vz p + vz q) / 2)) t) as [H1|H1].
  - exfalso. replace (vz p - (vz p + vz q) / 2) with ((vz p - vz q) / 2) in H1 by field.
    unfold Rdiv in H1. rewrite Rabs_mult, (Rabs_right (/ 2)) in H1 by lra. lra.
  - destruct (Rlt_dec (Rabs (vz q - (vz p + vz q) / 2)) t) as [H2|H2]; [|reflexivity].
    exfalso. replace (vz q - (vz p + vz q) / 2) with (- ((vz p - vz q) / 2)) in H2 by field.
    rewrite Rabs_Ropp in H2.
    unfold Rdiv in H2. rewrite Rabs_mult, (Rabs_right (/ 2)) in H2 by lra. lra.
Qed.

Lemma filter_by_z_two_far_apart_witness :
  2 * 1 <= Rabs (vz (mkV3 0 0 0) - vz (mkV3 0 0 2)) /\
  filter_by_z 1 [mkV3 0 0 0; mkV3 0 0 2] = [].
Proof.
  assert (H : 2 * 1 <= Rabs (vz (mkV3 0 0 0) - vz (mkV3 0 0 2))).
  { simpl vz. rewrite Rabs_left by lra. lra. }
  split; [exact H | exact (filter_by_z_two_far_apart 1 _ _ H)].
Defined.

Lemma sqrt_triangle (aa bb ab : R) :
  0 <= aa -> 0 <= bb -> ab * ab <= aa * bb ->
  sqrt (aa + bb + 2 * ab) <= sqrt aa + sqrt bb.
Proof.
  intros Ha Hb Hab.
  pose proof (sqrt_pos aa). pose proof (sqrt_pos bb).
  rewrite <- (sqrt_Rsqr (sqrt aa + sqrt bb)) by lra.
  apply sqrt_le_1_alt. unfold Rsqr.
  replace ((sqrt aa + sqrt bb) * (sqrt aa + sqrt bb))
    with (sqrt aa * sqrt aa + sqrt bb * sqrt bb + 2 * (sqrt aa * sqrt bb)) by ring.
  rewrite !sqrt_sqrt by lra. rewrite <- sqrt_mult by lra.
  assert (ab <= sqrt (aa * bb)).
  { eapply Rle_trans; [apply Rle_abs|]. rewrite <- sqrt_Rsqr_abs.
    apply sqrt_le_1_alt. unfold Rsqr. exact Hab. }
  lra.
Qed.

Lemma norm2_triangle (a b : V2) : norm2 (v2add a b) <= norm2 a + norm2 b.
Proof.
  unfold norm2.
  replace (dot2 (v2add a b) (v2add a b)) with (dot2 a a + dot2 b b + 2 * dot2 a b)
    by (unfold dot2, v2add; simpl; ring).
  apply sqrt_triangle; [apply dot2_self_nonneg | apply dot2_self_nonneg |].
  unfold dot2. pose proof (Rle_0_sqr (px a * py b - py a * px b)). unfold Rsqr in *. nra.
Qed.

Lemma dot3_self_nonneg (a : V3) : 0 <= dot3 a a.
Proof.
  unfold dot3. pose proof (Rle_0_sqr (vx a)). pose proof (Rle_0_sqr (vy a)).
  pose proof (Rle_0_sqr (vz a)). unfold Rsqr in *. lra.
Qed.

Lemma norm3_triangle (a b : V3) : norm3 (vadd a b) <= norm3 a + norm3 b.
Proof.
  unfold norm3.
  replace (dot3 (vadd a b) (vadd a b)) with (dot3 a a + dot3 b b + 2 * dot3 a b)
    by (unfold dot3, vadd; simpl; ring).
  apply sqrt_triangle; [apply dot3_self_nonneg | apply dot3_self_nonneg |].
  unfold dot3.
  pose proof (Rle_0_sqr (vx a * vy b - vy a * vx b)).
  pose proof (Rle_0_sqr (vy a * vz b - vz a * vy b)).
  pose proof (Rle_0_sqr (vx a * vz b - vz a * vx b)).
  unfold Rsqr in *. nra.
Qed.

Lemma norm3_zero (a : V3) : vx a = 0 -> vy a = 0 -> vz a = 0 -> norm3 a = 0.
Proof.
  intros Hx Hy Hz. unfold norm3, dot3. rewrite Hx, Hy, Hz.
  replace (0 * 0 + 0 * 0 + 0 * 0) with 0 by ring. apply sqrt_0.
Qed.

Lemma path_length2_cons2 a b t :
  path_length2 (a :: b :: t) = norm2 (v2sub b a) + path_length2 (b :: t).
Proof. reflexivity. Qed.

Lemma path_length3_cons2 a b t :
  path_length3 (a :: b :: t) = norm3 (vsub b a) + path_length3 (b :: t).
Proof. reflexivity. Qed.

Lemma path_length2_chord (l : list V2) (d : V2) :
  l <> [] -> norm2 (v2sub (last l d) (hd d l)) <= path_length2 l.
Proof.
  induction l as [|a t IH]; [congruence|]. intros _.
  destruct t as [|b t].
  - simpl. rewrite norm2_zero by (simpl; ring). lra.
  - rewrite path_length2_cons2.
    change (last (a :: b :: t) d) with (last (b :: t) d). simpl hd.
    specialize (IH ltac:(discriminate)). simpl hd in IH.
    replace (v2sub (last (b :: t) d) a)
      with (v2add (v2sub b a) (v2sub (last (b :: t) d) b))
      by (unfold v2add, v2sub; simpl; f_equal; ring).
    pose proof (norm2_triangle (v2sub b a) (v2sub (last (b :: t) d) b)). lra.
Qed.

Lemma path_length3_chord (l : list V3) (d : V3) :
  l <> [] -> norm3 (vsub (last l d) (hd d l)) <= path_length3 l.
Proof.
  induction l as [|a t IH]; [congruence|]. intros _.
  destruct t as [|b t].
  - simpl. rewrite norm3_zero by (simpl; ring). lra.
  - rewrite path_length3_cons2.
    change (last (a :: b :: t) d) with (last (b :: t) d). simpl hd.
    specialize (IH ltac:(discriminate)). simpl hd in IH.
    replace (vsub (last (b :: t) d) a)
      with (vadd (vsub b a) (vsub (last (b :: t) d) b))
      by (unfold vadd, vsub; simpl; f_equal; ring).
    pose proof (norm3_triangle (vsub b a) (vsub (last (b :: t) d) b)). lra.
Qed.

Lemma path_length3_shift (v : V3) (l : list V3) :
  path_length3 (map (fun p => vadd p v) l) = path_length3 l.
Proof.
  induction l as [|a t IH]; [reflexivity|].
  destruct t as [|b t]; [reflexivity|].
  change (map (fun p => vadd p v) (a :: b :: t))
    with (vadd a v :: vadd b v :: map (fun p => vadd p v) t).
  rewrite !path_length3_cons2. rewrite <- IH.
  replace (vsub (vadd b v) (vadd a v)) with (vsub b a)
    by (unfold vadd, vsub; simpl; f_equal; ring).
  reflexivity.
Qed.

Lemma fold_left_Rmin_le (l : list R) (x : R) :
  fold_left Rmin l x <= x /\ forall y, In y l -> fold_left Rmin l x <= y.
Proof.
  revert x. induction l as [|z l IH]; intros x; simpl.
  - split; [lra | tauto].
  - destruct (IH (Rmin x z)) as [H1 H2]. split.
    + eapply Rle_trans; [exact H1 | apply Rmin_l].
    + intros y [<-|Hy]; [eapply Rle_trans; [exact H1 | apply Rmin_r] | auto].
Qed.

Lemma fold_left_Rmin_in (l : list R) (x : R) :
  fold_left Rmin l x = x \/ In (fold_left Rmin l x) l.
Proof.
  revert x. induction l as [|z l IH]; intros x; simpl; [left; reflexivity|].
  destruct (IH (Rmin x z)) as [H|H]; [|right; right; exact H].
  rewrite H. apply Rmin_case; [left; reflexivity | right; left; reflexivity].
Qed.

Lemma fold_left_Rmax_in' (l : list R) (x : R) :
  fold_left Rmax l x = x \/ In (fold_left Rmax l x) l.
Proof.
  revert x. induction l as [|z l IH]; intros x; simpl; [left; reflexivity|].
  destruct (IH (Rmax x z)) as [H|H]; [|right; right; exact H].
  rewrite H. apply Rmax_case; [left; reflexivity | right; left; reflexivity].
Qed.

(** A coordinate bound folded over [w0 :: rest] is the coordinate of one of
    the points. *)
Lemma fold_bound_attained (f : R -> R -> R) (c : V2 -> R) (w0 : V2) (rest : list V2) :
  (forall x, fold_left f (map c rest) x = x \/ In (fold_left f (map c rest) x) (map c rest)) ->
  exists w, In w (w0 :: rest) /\ c w = fold_left f (map c rest) (c w0).
Proof.
  intros H. destruct (H (c w0)) as [E|E].
  - exists w0. split; [left; reflexivity | symmetry; exact E].
  - apply in_map_iff in E. destruct E as [w [Ew Hw]].
    exists w. split; [right; exact Hw | exact Ew].
Qed.

(** [compute_statistics] of a non-empty waypoint list: the count is the
    list's length; the total length is at least the straight-line distance
    from the first to the last waypoint (so it is non-negative); the average
    spacing times the number of gaps is the total length (both are 0 for a
    single waypoint); and the bounds are the coordinate-wise minimum and
    maximum: they contain every waypoint and each is reached by one. *)
Theorem compute_statistics_spec (waypoints : list V2) :
  waypoints <> [] ->
  exists total avg bmin bmax,
    compute_statistics waypoints = Stats (length waypoints) total avg bmin bmax /\
    norm2 (v2sub (last waypoints zero2) (hd zero2 waypoints)) <= total /\
    INR (length waypoints - 1) * avg = total /\
    (forall w, In w waypoints ->
       px bmin <= px w <= px bmax /\ py bmin <= py w <= py bmax) /\
    (exists w, In w waypoints /\ px w = px bmin) /\
    (exists w, In w waypoints /\ py w = py bmin) /\
    (exists w, In w waypoints /\ px w = px bmax) /\
    (exists w, In w waypoints /\ py w = py bmax).
Proof.
  intros Hne. destruct waypoints as [|w0 rest]; [congruence|].
  unfold compute_statistics.
  eexists _, _, _, _. split; [reflexivity|]. simpl px; simpl py.
  split; [apply path_length2_chord; discriminate|].
  split.
  - destruct rest as [|w1 rest'].
    + simpl. ring.
    + replace (1 <? length (w0 :: w1 :: rest'))%nat with true
        by (symmetry; apply Nat.ltb_lt; simpl; lia).
      assert (INR (length (w0 :: w1 :: rest') - 1) <> 0)
        by (apply not_0_INR; simpl; lia).
      field. exact H.
  - split; [|split; [|split; [|split]]].
    + intros w Hw.
      destruct (fold_left_Rmin_le (map px rest) (px w0)) as [Ax Bx].
      destruct (fold_left_Rmin_le (map py rest) (py w0)) as [Ay By].
      destruct (fold_left_Rmax_ge (map px rest) (px w0)) as [Cx Dx].
      destruct (fold_left_Rmax_ge (map py rest) (py w0)) as [Cy Dy].
      destruct Hw as [<-|Hw]; [lra|].
      pose proof (in_map px _ _ Hw). pose proof (in_map py _ _ Hw).
      split; split; auto.
    + apply fold_bound_attained. intros x. apply fold_left_Rmin_in.
    + apply fold_bound_attained. intros x. apply fold_left_Rmin_in.
    + apply fold_bound_attained. intros x. apply fold_left_Rmax_in'.
    + apply fold_bound_attained. intros x. apply fold_left_Rmax_in'.
Qed.

Lemma compute_statistics_spec_witness :
  [mkV2 0 0; mkV2 3 4] <> [] /\
  exists total avg bmin bmax,
    compute_statistics [mkV2 0 0; mkV2 3 4] =
      Stats (length [mkV2 0 0; mkV2 3 4]) total avg bmin bmax /\
    norm2 (v2sub (last [mkV2 0 0; mkV2 3 4] zero2) (hd zero2 [mkV2 0 0; mkV2 3 4])) <= total /\
    INR (length [mkV2 0 0; mkV2 3 4] - 1) * avg = total /\
    (forall w, In w [mkV2 0 0; mkV2 3 4] ->
       px bmin <= px w <= px bmax /\ py bmin <= py w <= py bmax) /\
    (exists w, In w [mkV2 0 0; mkV2 3 4] /\ px w = px bmin) /\
    (exists w, In w [mkV2 0 0; mkV2 3 4] /\ py w = py bmin) /\
    (exists w, In w [mkV2 0 0; mkV2 3 4] /\ px w = px bmax) /\
    (exists w, In w [mkV2 0 0; mkV2 3 4] /\ py w = py bmax).
Proof.
  assert (H : [mkV2 0 0; mkV2 3 4] <> []) by discriminate.
  split; [exact H | exact (compute_statistics_spec _ H)].
Defined.

(** [compute_trajectory_length] is at least the straight-line distance
    between the positions of the smallest and the largest pose id (hence
    non-negative; both are 0 for an empty dictionary). *)
Theorem compute_trajectory_length_chord (poses : PoseDict) :
  norm3 (vsub (position poses (last (sorted_ids poses) 0%Z))
              (position poses (hd 0%Z (sorted_ids poses))))
    <= compute_trajectory_length poses.
Proof.
  unfold compute_trajectory_length.
  destruct (sorted_ids poses) as [|k ks] eqn:E.
  - simpl. rewrite norm3_zero by (simpl; ring). lra.
  - pose proof (path_length3_chord (map (fun k => trans (dict_get poses k)) (k :: ks))
                  zero3 ltac:(discriminate)) as H.
    rewrite (last_map_nonempty _ _ _ 0%Z) in H by discriminate.
    exact H.
Qed.

Lemma dict_lookup_map_snd (f : Mat4 -> Mat4) (poses : PoseDict) (k : Z) :
  dict_lookup k (map (fun e => (fst e, f (snd e))) poses) = option_map f (dict_lookup k poses).
Proof.
  induction poses as [|[k' P] t IH]; simpl; [reflexivity|].
  destruct (Z.eqb k k'); [reflexivity | exact IH].
Qed.

Lemma dict_lookup_in (poses : PoseDict) (k : Z) :
  In k (map fst poses) -> exists P, dict_lookup k poses = Some P.
Proof.
  induction poses as [|[k' P] t IH]; simpl; [tauto|].
  intros [<-|Hk]; [rewrite Z.eqb_refl; eauto|].
  destruct (Z.eqb k k'); eauto.
Qed.

(** Moving the world origin (left-multiplying every pose by the same
    translation) leaves [compute_trajectory_length] unchanged. *)
Theorem compute_trajectory_length_translate (v : V3) (poses : PoseDict) :
  compute_trajectory_length (map (fun e => (fst e, matmul4 (translate v) (snd e))) poses) =
  compute_trajectory_length poses.
Proof.
  unfold compute_trajectory_length.
  assert (Hids : sorted_ids (map (fun e => (fst e, matmul4 (translate v) (snd e))) poses) =
                 sorted_ids poses).
  { unfold sorted_ids. rewrite map_map. reflexivity. }
  rewrite Hids.
  rewrite <- (path_length3_shift v (map (fun k => trans (dict_get poses k)) (sorted_ids poses))).
  rewrite map_map.
  f_equal. apply map_ext_in. intros k Hk.
  apply in_sorted_ids in Hk. destruct (dict_lookup_in _ _ Hk) as [P EP].
  unfold dict_get. rewrite dict_lookup_map_snd, EP. cbn [option_map].
  rewrite matmul4_translate_l. reflexivity.
Qed.

(** ** Loop detection: verification, descriptor database, matching *)

(** [detect_and_verify] returns exactly the triples [(i, j, T)] where
    [(i, j)] is a candidate of [detect_candidates], both frames have a point
    cloud, the ICP started from [inv(poses[i]) @ poses[j]] has a fitness
    strictly above the threshold, and [T] is that ICP's transformation. *)
Theorem detect_and_verify_exact icp inv (dist : R) (gap : Z) (thr : R)
    (poses : PoseDict) (clouds : list (Z * list V3)) (i j : Z) (T : Mat4) :
  In (i, j, T) (detect_and_verify icp inv dist gap thr poses clouds) <->
  In (i, j) (detect_candidates dist gap poses) /\
  exists cloud_i cloud_j,
    assoc_lookup i clouds = Some cloud_i /\ assoc_lookup j clouds = Some cloud_j /\
    let result := icp cloud_i cloud_j (matmul4 (inv (dict_get poses i)) (dict_get poses j)) in
    thr < fitness result /\ T = transformation result.
Proof.
  unfold detect_and_verify. rewrite in_flat_map. split.
  - intros ([a b] & Hc & H).
    destruct (assoc_lookup a clouds) as [ci|] eqn:Ei; [|destruct H].
    destruct (assoc_lookup b clouds) as [cj|] eqn:Ej; [|destruct H].
    unfold verify_loop in H.
    destruct (Rlt_dec thr _) as [Hf|Hf]; [|destruct H].
    destruct H as [E|[]]. injection E as <- <- <-.
    split; [exact Hc|]. exists ci, cj. auto.
  - intros (Hc & ci & cj & Ei & Ej & Hf & ET).
    exists (i, j). split; [exact Hc|].
    rewrite Ei, Ej. unfold verify_loop.
    destruct (Rlt_dec thr _) as [_|Hn]; [|contradiction].
    left. rewrite ET. reflexivity.
Qed.

Lemma assoc_lookup_set {A} (d : list (Z * A)) (k q : Z) (v : A) :
  assoc_lookup q (assoc_set d k v) = if Z.eqb q k then Some v else assoc_lookup q d.
Proof.
  induction d as [|[k' v'] t IH]; simpl.
  - reflexivity.
  - destruct (Z.eqb k k') eqn:E1; simpl.
    + apply Z.eqb_eq in E1. subst k'. destruct (Z.eqb q k); reflexivity.
    + rewrite IH. destruct (Z.eqb q k) eqn:E2, (Z.eqb q k') eqn:E3; try reflexivity.
      apply Z.eqb_eq in E2, E3. subst. rewrite Z.eqb_refl in E1. discriminate.
Qed.

Lemma assoc_set_keys {A} (d : list (Z * A)) (k : Z) (v : A) :
  map fst (assoc_set d k v) =
  if existsb (Z.eqb k) (map fst d) then map fst d else map fst d ++ [k].
Proof.
  induction d as [|[k' v'] t IH]; simpl; [reflexivity|].
  destruct (Z.eqb k k') eqn:E; simpl; [reflexivity|].
  rewrite IH. destruct (existsb _ _); reflexivity.
Qed.

(** [add_frame] stores the descriptor of the given points under the frame
    id, replacing an earlier descriptor of that id in place, and leaves the
    other frames untouched; the ids of the database stay distinct. *)
Theorem add_frame_lookup (cfg : ScanContextConfig) (db : DescriptorDB) (frame_id q : Z)
    (points : list V3) :
  assoc_lookup q (add_frame cfg db frame_id points) =
    (if Z.eqb q frame_id then Some (compute_descriptor cfg points) else assoc_lookup q db) /\
  (NoDup (map fst db) -> NoDup (map fst (add_frame cfg db frame_id points))).
Proof.
  unfold add_frame. split; [apply assoc_lookup_set|].
  intros Hnd. rewrite assoc_set_keys.
  destruct (existsb (Z.eqb frame_id) (map fst db)) eqn:E; [exact Hnd|].
  apply NoDup_app; [exact Hnd | constructor; [intros []|constructor] |].
  intros x Hx [->|[]].
  assert (Hc : existsb (Z.eqb x) (map fst db) = true)
    by (apply existsb_exists; exists x; split; [exact Hx | apply Z.eqb_refl]).
  congruence.
Qed.

Definition sim_ge (x y : Z * R) : Prop := snd y <= snd x.

Lemma insert_by_similarity_perm (m : Z * R) (l : list (Z * R)) :
  Permutation (insert_by_similarity m l) (m :: l).
Proof.
  induction l as [|y t IH]; simpl; [reflexivity|].
  destruct (Rlt_dec _ _); [reflexivity|].
  rewrite IH. apply perm_swap.
Qed.

Lemma insert_by_similarity_sorted (m : Z * R) (l : list (Z * R)) :
  Sorted sim_ge l -> Sorted sim_ge (insert_by_similarity m l).
Proof.
  induction 1 as [|y t Ht IH Hhd]; simpl.
  - repeat constructor.
  - destruct (Rlt_dec (snd y) (snd m)) as [Hlt|Hge].
    + constructor; [constructor; assumption|]. constructor. unfold sim_ge. lra.
    + constructor; [exact IH|].
      destruct t as [|z t']; simpl.
      * constructor. unfold sim_ge. lra.
      * inversion Hhd as [|? ? Hyz]; subst.
        destruct (Rlt_dec (snd z) (snd m)); constructor; unfold sim_ge in *; lra.
Qed.

Lemma sort_by_similarity_spec (l : list (Z * R)) :
  Permutation (sort_by_similarity l) l /\ Sorted sim_ge (sort_by_similarity l).
Proof.
  unfold sort_by_similarity.
  assert (G : forall acc, Sorted sim_ge acc ->
    Permutation (fold_left (fun acc m => insert_by_similarity m acc) l acc) (l ++ acc) /\
    Sorted sim_ge (fold_left (fun acc m => insert_by_similarity m acc) l acc)).
  { induction l as [|m t IH]; intros acc Hs; simpl; [split; [reflexivity | exact Hs]|].
    destruct (IH (insert_by_similarity m acc) (insert_by_similarity_sorted m acc Hs))
      as [P S]. split; [|exact S].
    rewrite P, insert_by_similarity_perm. apply Permutation_sym, Permutation_middle. }
  destruct (G [] (Sorted_nil _)) as [P S]. rewrite app_nil_r in P. auto.
Qed.

(** [find_matches] returns nothing for an id that is not in the database;
    otherwise its result is ordered by non-increasing similarity and holds
    exactly the pairs [(f, s)] of a stored frame [f] at least [min_gap] ids
    away from the query whose similarity [s] to the query's descriptor
    exceeds the threshold. *)
Theorem find_matches_spec (cfg : ScanContextConfig) (db : DescriptorDB) (q min_gap : Z) :
  (assoc_lookup q db = None -> find_matches cfg db q min_gap = []) /\
  Sorted (fun x y => snd y <= snd x) (find_matches cfg db q min_gap) /\
  forall f s,
    In (f, s) (find_matches cfg db q min_gap) <->
    exists qd d,
      assoc_lookup q db = Some qd /\ In (f, d) db /\ (min_gap <= Z.abs (f - q))%Z /\
      s = compute_similarity cfg qd d /\ similarity_threshold cfg < s.
Proof.
  unfold find_matches. split; [intros ->; reflexivity|].
  destruct (assoc_lookup q db) as [qd|] eqn:Eq.
  - destruct (sort_by_similarity_spec (scan_matches cfg qd q min_gap db)) as [P S].
    split; [exact S|]. intros f s.
    assert (HP : In (f, s) (sort_by_similarity (scan_matches cfg qd q min_gap db)) <->
                 In (f, s) (scan_matches cfg qd q min_gap db))
      by (split; apply Permutation_in; [exact P | apply Permutation_sym, P]).
    rewrite HP.
    unfold scan_matches. rewrite in_flat_map. split.
    + intros ([f' d] & Hin & H).
      destruct (Z.ltb_spec (Z.abs (f' - q)) min_gap) as [Hg|Hg]; [destruct H|].
      destruct (Rlt_dec _ _) as [Ht|Ht]; [|destruct H].
      destruct H as [E|[]]. injection E as <- <-.
      exists qd, d. auto.
    + intros (qd' & d & E & Hin & Hg & -> & Ht). injection E as <-.
      exists (f, d). split; [exact Hin|].
      destruct (Z.ltb_spec (Z.abs (f - q)) min_gap) as [Hg'|_]; [lia|].
      destruct (Rlt_dec _ _) as [_|Hn]; [left; reflexivity | contradiction].
  - split; [constructor|]. intros f s. split; [intros []|].
    intros (qd & d & E & _). discriminate.
Qed.

Lemma fold_left_Rmax_shift (l : list R) (x y : R) :
  fold_left Rmax l (Rmax x y) = Rmax x (fold_left Rmax l y).
Proof.
  revert y. induction l as [|z t IH]; intros y; simpl; [reflexivity|].
  rewrite <- IH. f_equal. unfold Rmax.
  repeat destruct (Rle_dec _ _); lra.
Qed.

Lemma fold_left_Rmax_perm (l l' : list R) (x : R) :
  Permutation l l' -> fold_left Rmax l x = fold_left Rmax l' x.
Proof.
  intros HP. revert x. induction HP as [|z l l' _ IH|y z l|l l' l'' _ IH1 _ IH2];
    intros x; simpl.
  - reflexivity.
  - apply IH.
  - f_equal. unfold Rmax. repeat destruct (Rle_dec _ _); lra.
  - rewrite IH1. apply IH2.
Qed.

(** The descriptor of two point sets together is, bin by bin, the larger of
    their two descriptors. *)
Theorem compute_descriptor_app (cfg : ScanContextConfig) (pts1 pts2 : list V3) (r a : Z) :
  compute_descriptor cfg (pts1 ++ pts2) r a =
  Rmax (compute_descriptor cfg pts1 r a) (compute_descriptor cfg pts2 r a).
Proof.
  rewrite !compute_descriptor_bin, filter_app, map_app, fold_left_app.
  pose proof (compute_descriptor_nonneg cfg pts1 r a) as H0.
  rewrite compute_descriptor_bin in H0.
  rewrite <- (Rmax_left (fold_left Rmax (map vz (filter (in_bin cfg r a) pts1)) 0) 0) at 1
    by lra.
  apply fold_left_Rmax_shift.
Qed.

Lemma Permutation_filter_bool {A} (f : A -> bool) (l l' : list A) :
  Permutation l l' -> Permutation (filter f l) (filter f l').
Proof.
  induction 1 as [|x l l' _ IH|x y l|l l' l'' _ IH1 _ IH2]; simpl.
  - constructor.
  - destruct (f x); [apply perm_skip|]; exact IH.
  - destruct (f x), (f y); try apply perm_swap; reflexivity.
  - etransitivity; eassumption.
Qed.

(** The descriptor does not depend on the order of the points. *)
Theorem compute_descriptor_perm (cfg : ScanContextConfig) (pts1 pts2 : list V3) :
  Permutation pts1 pts2 ->
  forall r a, compute_descriptor cfg pts1 r a = compute_descriptor cfg pts2 r a.
Proof.
  intros HP r a. rewrite !compute_descriptor_bin.
  apply fold_left_Rmax_perm, Permutation_map, Permutation_filter_bool, HP.
Qed.

Lemma compute_descriptor_perm_witness :
  Permutation [mkV3 1 0 0; mkV3 0 1 2] [mkV3 0 1 2; mkV3 1 0 0] /\
  forall r a,
    compute_descriptor default_scan_context_config [mkV3 1 0 0; mkV3 0 1 2] r a =
    compute_descriptor default_scan_context_config [mkV3 0 1 2; mkV3 1 0 0] r a.
Proof.
  assert (H : Permutation [mkV3 1 0 0; mkV3 0 1 2] [mkV3 0 1 2; mkV3 1 0 0])
    by apply perm_swap.
  split; [exact H | exact (compute_descriptor_perm _ _ _ H)].
Defined.

Lemma cell_sum_ext (L : list (Z * Z)) (f g : Z -> Z -> R) :
  (forall c, In c L -> f (fst c) (snd c) = g (fst c) (snd c)) ->
  fold_right (fun c acc => f (fst c) (snd c) + acc) 0 L =
  fold_right (fun c acc => g (fst c) (snd c) + acc) 0 L.
Proof.
  induction L as [|c t IH]; intros H; simpl; [reflexivity|].
  rewrite H by (left; reflexivity). rewrite IH; [reflexivity|].
  intros; apply H; right; assumption.
Qed.

Lemma fold_left_stays_one {A} (g : R -> A -> R) (l : list A) :
  (forall x, In x l -> g 1 x = 1) -> fold_left g l 1 = 1.
Proof.
  induction l as [|x t IH]; intros H; simpl; [reflexivity|].
  rewrite H by (left; reflexivity). apply IH. intros; apply H; right; assumption.
Qed.

(** A scan with a non-zero descriptor has similarity exactly 1 with itself
    (the unshifted comparison reaches 1 and no shift exceeds it). *)
Theorem compute_similarity_self (cfg : ScanContextConfig) (points : list V3) :
  (1 <= num_sectors cfg)%Z ->
  0 < fro_norm (num_rings cfg) (num_sectors cfg) (compute_descriptor cfg points) ->
  let d := compute_descriptor cfg points in
  compute_similarity cfg d d = 1.
Proof.
  intros Hns Hpos d. fold d in Hpos.
  set (nr := num_rings cfg) in *. set (ns := num_sectors cfg) in *.
  assert (N : forall r a, 0 <= d r a) by (intros; apply compute_descriptor_nonneg).
  assert (Roll0 : forall c, In c (cells nr ns) -> np_roll ns d 0 (fst c) (snd c) = d (fst c) (snd c)).
  { intros [r a] Hc. apply in_cells in Hc as [_ Ha]. rewrite in_axis_ids in Ha. simpl.
    unfold np_roll. rewrite Z.sub_0_r, Z.mod_small by lia. reflexivity. }
  assert (Fro0 : fro_norm nr ns (np_roll ns d 0) = fro_norm nr ns d).
  { unfold fro_norm, np_sum. f_equal.
    apply (cell_sum_ext (cells nr ns) (fun r a => np_roll ns d 0 r a * np_roll ns d 0 r a)
                        (fun r a => d r a * d r a)).
    intros c Hc. rewrite (Roll0 c Hc). reflexivity. }
  assert (Cos0 : cosine nr ns d (np_roll ns d 0) = 1).
  { unfold cosine. rewrite Fro0.
    assert (E : np_sum nr ns (fun r a => d r a * np_roll ns d 0 r a) =
                np_sum nr ns (fun r a => d r a * d r a)).
    { unfold np_sum.
      apply (cell_sum_ext (cells nr ns) (fun r a => d r a * np_roll ns d 0 r a)
                          (fun r a => d r a * d r a)).
      intros c Hc. rewrite (Roll0 c Hc). reflexivity. }
    rewrite E. unfold fro_norm in *. rewrite sqrt_sqrt.
    - field. intros E0. rewrite E0, sqrt_0 in Hpos. lra.
    - apply (cell_sum_nonneg (cells nr ns) (fun r a => d r a * d r a)).
      intros; apply Rle_0_sqr. }
  unfold compute_similarity. fold nr ns.
  destruct (Z.to_nat ns) as [|k] eqn:Ek; [lia|].
  rewrite <- cons_seq. simpl fold_left.
  rewrite Fro0. destruct (Rlt_dec 0 _) as [_|Hn]; [|lra].
  rewrite Cos0. rewrite Rmax_right by lra.
  apply fold_left_stays_one. intros x _.
  destruct (Rlt_dec 0 (fro_norm nr ns d)) as [H1|H1]; [|contradiction].
  destruct (Rlt_dec 0 _) as [H2|H2]; [|reflexivity].
  pose proof (cosine_bounds nr ns d (np_roll ns d (Z.of_nat x)) N
                (fun r a => N r _) H1 H2) as [_ Hle].
  apply Rmax_left. exact Hle.
Qed.

Lemma compute_similarity_self_witness :
  (1 <= num_sectors (mkScanContextConfig 1 1 80 0.1))%Z /\
  0 < fro_norm (num_rings (mkScanContextConfig 1 1 80 0.1))
        (num_sectors (mkScanContextConfig 1 1 80 0.1))
        (compute_descriptor (mkScanContextConfig 1 1 80 0.1) [mkV3 0 0 1]) /\
  (let d := compute_descriptor (mkScanContextConfig 1 1 80 0.1) [mkV3 0 0 1] in
   compute_similarity (mkScanContextConfig 1 1 80 0.1) d d = 1).
Proof.
  set (cfg := mkScanContextConfig 1 1 80 0.1).
  assert (H1 : (1 <= num_sectors cfg)%Z) by (simpl; lia).
  assert (Hb : forall p, in_bin cfg 0 0 p = true).
  { intros p. unfold in_bin.
    replace (range_idx cfg p) with 0%Z by (unfold range_idx, np_clip; simpl; lia).
    replace (angle_idx cfg p) with 0%Z by (unfold angle_idx, np_clip; simpl; lia).
    reflexivity. }
  assert (Hd : compute_descriptor cfg [mkV3 0 0 1] 0%Z 0%Z = 1).
  { rewrite compute_descriptor_bin. cbn [filter]. rewrite Hb. simpl.
    apply Rmax_right. lra. }
  assert (H2 : 0 < fro_norm (num_rings cfg) (num_sectors cfg)
                 (compute_descriptor cfg [mkV3 0 0 1])).
  { unfold fro_norm, np_sum. change (cells (num_rings cfg) (num_sectors cfg)) with [(0%Z, 0%Z)].
    cbn [fold_right fst snd]. rewrite Hd.
    replace (1 * 1 + 0) with 1 by ring. rewrite sqrt_1. lra. }
  split; [exact H1|]. split; [exact H2|].
  exact (compute_similarity_self cfg [mkV3 0 0 1] H1 H2).
Defined.

(** ** Pose graph bookkeeping *)

Definition pg_inv {Pose3} (st : PGState Pose3) : Prop :=
  map fst (initial_estimates st) = pose_ids st /\ NoDup (pose_ids st) /\
  length (graph st) =
    (length (filter is_prior (graph st)) + n_odom_factors st + n_loop_factors st)%nat.

Lemma pg_call_inv (Pose3 : Type) (m2p : Mat4 -> Pose3) (st : PGState Pose3) (c : PGCall) :
  pg_inv st -> pg_inv (pg_call Pose3 m2p st c).
Proof.
  intros (Hk & Hnd & Hc).
  destruct c as [k P|k P|i j T|i j T]; unfold pg_inv; simpl.
  - unfold add_prior. cbn [graph initial_estimates pose_ids n_odom_factors n_loop_factors].
    rewrite filter_app, !length_app. simpl. split; [exact Hk|]. split; [exact Hnd|]. lia.
  - unfold add_initial_estimate. destruct (existsb (Z.eqb k) (pose_ids st)) eqn:E.
    + split; [exact Hk|]. split; assumption.
    + cbn [graph initial_estimates pose_ids n_odom_factors n_loop_factors].
      rewrite map_app, Hk. split; [reflexivity|]. split; [|exact Hc].
      apply NoDup_app; [exact Hnd | repeat constructor; intros []|].
      intros x Hx [->|[]].
      assert (existsb (Z.eqb x) (pose_ids st) = true)
        by (apply existsb_exists; exists x; split; [exact Hx | apply Z.eqb_refl]).
      congruence.
  - unfold add_odometry_factor. cbn [graph initial_estimates pose_ids n_odom_factors n_loop_factors].
    rewrite filter_app, !length_app. simpl. split; [exact Hk|]. split; [exact Hnd|]. lia.
  - unfold add_loop_closure. cbn [graph initial_estimates pose_ids n_odom_factors n_loop_factors].
    rewrite filter_app, !length_app. simpl. split; [exact Hk|]. split; [exact Hnd|]. lia.
Qed.

Lemma pg_run_inv (Pose3 : Type) (m2p : Mat4 -> Pose3) (calls : list PGCall) :
  forall st, pg_inv st -> pg_inv (pg_run Pose3 m2p st calls).
Proof.
  unfold pg_run. induction calls as [|c cs IH]; intros st H; simpl; [exact H|].
  apply IH, pg_call_inv, H.
Qed.

Lemma pg_init_inv (Pose3 : Type) : pg_inv (pg_init Pose3).
Proof. unfold pg_inv. simpl. split; [reflexivity|]. split; [constructor | reflexivity]. Qed.

(** After any sequence of calls on a fresh optimizer, the keys of
    [initial_estimates] are exactly the tracked ids, in insertion order,
    without repetition (so [gtsam.Values.insert] never meets a key twice),
    and [get_statistics] counts every factor: the total is the number of
    prior factors plus the odometry and loop counters. *)
Theorem pg_run_bookkeeping (Pose3 : Type) (m2p : Mat4 -> Pose3) (calls : list PGCall) :
  let st := pg_run Pose3 m2p (pg_init Pose3) calls in
  map fst (initial_estimates st) = pose_ids st /\
  NoDup (map fst (initial_estimates st)) /\
  stat_n_total_factors (get_statistics st) =
    (length (filter is_prior (graph st)) + stat_n_odom_factors (get_statistics st)
     + stat_n_loop_factors (get_statistics st))%nat.
Proof.
  intros st. destruct (pg_run_inv Pose3 m2p calls _ (pg_init_inv Pose3)) as (Hk & Hnd & Hc).
  fold st in Hk, Hnd, Hc. split; [exact Hk|]. split; [rewrite Hk; exact Hnd|].
  exact Hc.
Qed.

Lemma assoc_lookup_app_none {A} (d : list (Z * A)) (k : Z) (v : A) :
  assoc_lookup k d = None -> assoc_lookup k (d ++ [(k, v)]) = Some v.
Proof.
  induction d as [|[k' v'] t IH]; simpl; intros H.
  - rewrite Z.eqb_refl. reflexivity.
  - destruct (Z.eqb k k'); [discriminate | exact (IH H)].
Qed.

Lemma assoc_lookup_app_some {A} (d : list (Z * A)) (k : Z) (v e : A) :
  assoc_lookup k d = Some e -> assoc_lookup k (d ++ [(k, v)]) = Some e.
Proof.
  induction d as [|[k' v'] t IH]; simpl; intros H; [discriminate|].
  destruct (Z.eqb k k'); [exact H | exact (IH H)].
Qed.

Lemma assoc_lookup_keys {A} (d : list (Z * A)) (k : Z) :
  existsb (Z.eqb k) (map fst d) = match assoc_lookup k d with Some _ => true | None => false end.
Proof.
  induction d as [|[k' v'] t IH]; simpl; [reflexivity|].
  destruct (Z.eqb k k'); [reflexivity | exact IH].
Qed.

(** On any state reached from a fresh optimizer, the first estimate given
    for an id is the one kept: [add_initial_estimate] stores the pose of an
    id not seen before and ignores later ones. *)
Theorem add_initial_estimate_first_wins (Pose3 : Type) (m2p : Mat4 -> Pose3)
    (calls : list PGCall) (k : Z) (P : Mat4) :
  let st := pg_run Pose3 m2p (pg_init Pose3) calls in
  assoc_lookup k (initial_estimates (add_initial_estimate Pose3 m2p k P st)) =
  match assoc_lookup k (initial_estimates st) with
  | Some e => Some e
  | None => Some (m2p P)
  end.
Proof.
  intros st. destruct (pg_run_inv Pose3 m2p calls _ (pg_init_inv Pose3)) as (Hk & _ & _).
  fold st in Hk. unfold add_initial_estimate.
  rewrite <- Hk, assoc_lookup_keys.
  destruct (assoc_lookup k (initial_estimates st)) as [e|] eqn:E.
  - exact E.
  - cbn [initial_estimates]. apply assoc_lookup_app_none, E.
Qed.

(** [get_statistics] after [build_from_odometry] of [N >= 1] poses on a
    fresh optimizer: [N] poses, [N - 1] odometry factors, no loop factor,
    [N] factors in total. *)
Theorem build_from_odometry_statistics (Pose3 : Type) (m2p : Mat4 -> Pose3)
    (inv : Mat4 -> Mat4) (optimize : PGState Pose3 -> list (Z * Mat4))
    (P0 : Mat4) (rest : list Mat4) :
  get_statistics (fst (build_from_odometry Pose3 m2p inv optimize (P0 :: rest) (pg_init Pose3))) =
  mkPGStatistics (S (length rest)) (length rest) 0 (S (length rest)).
Proof.
  change (fst (build_from_odometry Pose3 m2p inv optimize (P0 :: rest) (pg_init Pose3)))
    with (fold_left (chain_step Pose3 m2p inv (P0 :: rest)) (seq 1 (length (P0 :: rest) - 1))
            (mkPGState Pose3 [PriorFactorPose3 Pose3 0 (m2p P0)] [(0%Z, m2p P0)] [0%Z] 0 0)).
  rewrite chain_fold.
  2: { intros j Hj Hin. simpl in Hin. destruct Hin as [Hin|[]]. lia. }
  unfold get_statistics. cbn [graph pose_ids n_odom_factors n_loop_factors].
  simpl length. rewrite !length_map, length_seq. f_equal; lia.
Qed.

(** ** Waypoint extractor operator *)

Definition count_waypoints (outs : list Output) : nat :=
  length (filter (fun o => String.eqb (fst o) "waypoints") outs).

Lemma count_waypoints_app l1 l2 :
  count_waypoints (l1 ++ l2) = (count_waypoints l1 + count_waypoints l2)%nat.
Proof. unfold count_waypoints. rewrite filter_app, length_app. reflexivity. Qed.

Lemma wp_on_event_once ms so eps st ev st' outs status :
  wp_on_event ms so eps st ev = Some (st', outs, status) ->
  (wp_extracted st = true -> wp_extracted st' = true /\ count_waypoints outs = O) /\
  (count_waypoints outs <= 1)%nat /\
  (count_waypoints outs = 1%nat -> wp_extracted st' = true).
Proof.
  intros E. unfold wp_on_event in E.
  destruct ev as [id value| |].
  - destruct (String.eqb id "pose").
    + destruct (length value =? 16)%nat; injection E as <- <- _;
        unfold count_waypoints; simpl; intuition (try congruence; try lia).
    + destruct (String.eqb id "map_complete").
      * destruct (negb (wp_extracted st) && (0 <? length (wp_poses st))%nat)%bool eqn:C.
        -- destruct (op_extract_waypoints _ _ _ _) as [w|]; [|discriminate].
           injection E as <- <- _.
           apply Bool.andb_true_iff in C as [C _]. apply Bool.negb_true_iff in C.
           unfold count_waypoints; simpl; intuition (try congruence; try lia).
        -- injection E as <- <- _.
           unfold count_waypoints; simpl; intuition (try congruence; try lia).
      * injection E as <- <- _.
        unfold count_waypoints; simpl; intuition (try congruence; try lia).
  - destruct (negb (wp_extracted st) && (0 <? length (wp_poses st))%nat)%bool.
    + destruct (op_extract_waypoints _ _ _ _); [|discriminate].
      injection E as <- <- _.
      unfold count_waypoints; simpl; intuition (try congruence; try lia).
    + injection E as <- <- _.
      unfold count_waypoints; simpl; intuition (try congruence; try lia).
  - injection E as <- <- _.
    unfold count_waypoints; simpl; intuition (try congruence; try lia).
Qed.

Lemma wp_run_once ms so eps evs :
  forall st st' outs,
  wp_run ms so eps st evs = Some (st', outs) ->
  (count_waypoints outs <= if wp_extracted st then O else 1)%nat.
Proof.
  induction evs as [|ev evs IH]; intros st st' outs E; simpl in E.
  - injection E as _ <-. unfold count_waypoints. destruct (wp_extracted st); simpl; lia.
  - destruct (wp_on_event ms so eps st ev) as [[[s1 o1] status]|] eqn:E1; [|discriminate].
    destruct (wp_run ms so eps s1 evs) as [[s2 o2]|] eqn:E2; [|discriminate].
    injection E as _ <-. rewrite count_waypoints_app.
    destruct (wp_on_event_once _ _ _ _ _ _ _ _ E1) as (Hx & H1 & Hset).
    specialize (IH _ _ _ E2).
    destruct (wp_extracted st).
    + destruct (Hx eq_refl) as [Hs1 Hc]. rewrite Hs1 in IH. lia.
    + destruct (count_waypoints o1) as [|[|m]] eqn:C.
      * destruct (wp_extracted s1); lia.
      * rewrite (Hset eq_refl) in IH. lia.
      * lia.
Qed.

(** Whatever events the operator receives after [__init__], it sends the
    ["waypoints"] output at most once. *)
Theorem wp_waypoints_sent_at_most_once (min_spacing : R) (simplify_on : bool) (epsilon : R)
    (evs : list DoraEvent) (st : WpState) (outs : list Output) :
  wp_run min_spacing simplify_on epsilon wp_init evs = Some (st, outs) ->
  (length (filter (fun o => String.eqb (fst o) "waypoints") outs) <= 1)%nat.
Proof.
  intros E. exact (wp_run_once _ _ _ _ _ _ _ E).
Qed.

Lemma wp_waypoints_sent_at_most_once_witness :
  wp_run 0.5 false 0.1 wp_init
    [Input "pose" (flatten4 eye4); Input "map_complete" []; Input "map_complete" []] =
    Some (mkWpState [eye4] true,
          [("waypoints"%string, flatten2 [mkV2 0 0]);
           ("trajectory"%string, flatten2 [mkV2 0 0])]) /\
  (length (filter (fun o => String.eqb (fst o) "waypoints")
     [("waypoints"%string, flatten2 [mkV2 0 0]);
      ("trajectory"%string, flatten2 [mkV2 0 0])]) <= 1)%nat.
Proof.
  assert (H : wp_run 0.5 false 0.1 wp_init
    [Input "pose" (flatten4 eye4); Input "map_complete" []; Input "map_complete" []] =
    Some (mkWpState [eye4] true,
          [("waypoints"%string, flatten2 [mkV2 0 0]);
           ("trajectory"%string, flatten2 [mkV2 0 0])])).
  { simpl wp_run. unfold wp_on_event. simpl String.eqb. cbv iota.
    replace (unflatten4 (flatten4 eye4)) with eye4 by reflexivity. simpl.
    unfold op_extract_waypoints. simpl.
    rewrite norm2_zero by (simpl; ring).
    destruct (Rlt_dec 0.1 0) as [Hc|_]; [lra|].
    simpl. reflexivity. }
  split; [exact H|]. exact (wp_waypoints_sent_at_most_once _ _ _ _ _ _ H).
Defined.

Lemma op_dp_scan_spec (start u : V2) (pts : list V2) :
  forall i acc,
  op_dp_scan start u i pts acc = acc \/
  (fst acc < fst (op_dp_scan start u i pts acc) /\
   (i <= snd (op_dp_scan start u i pts acc) < i + length pts)%nat).
Proof.
  induction pts as [|p t IH]; intros i acc; simpl; [left; reflexivity|].
  destruct (Rlt_dec (fst acc) (dp_distance start u p)) as [Hlt|Hge].
  - right. destruct (IH (S i) (dp_distance start u p, i)) as [E|[H1 H2]].
    + rewrite E. simpl. split; [exact Hlt | lia].
    + simpl in H1. split; [lra | lia].
  - destruct (IH (S i) acc) as [E|[H1 H2]]; [left; exact E|].
    right. split; [exact H1 | lia].
Qed.

Lemma op_dp_scan_flat (start u : V2) (pts : list V2) :
  forall i acc,
  (forall p, In p pts -> dp_distance start u p <= fst acc) ->
  op_dp_scan start u i pts acc = acc.
Proof.
  induction pts as [|p t IH]; intros i acc H; simpl; [reflexivity|].
  destruct (Rlt_dec (fst acc) (dp_distance start u p)) as [Hlt|_].
  - specialize (H p (or_introl eq_refl)). lra.
  - apply IH. intros; apply H; right; assumption.
Qed.

Lemma In_firstn_l {A} (n : nat) (l : list A) (x : A) : In x (firstn n l) -> In x l.
Proof. intros H. rewrite <- (firstn_skipn n l). apply in_or_app. left; exact H. Qed.

Lemma In_skipn_l {A} (n : nat) (l : list A) (x : A) : In x (skipn n l) -> In x l.
Proof. intros H. rewrite <- (firstn_skipn n l). apply in_or_app. right; exact H. Qed.

Lemma In_removelast_l {A} (l : list A) (x : A) : In x (removelast l) -> In x l.
Proof.
  intros H. destruct l as [|a t]; [destruct H|].
  rewrite (app_removelast_last a (l := a :: t)) by discriminate.
  apply in_or_app. left; exact H.
Qed.

Lemma last_In_nonempty {A} (l : list A) (d : A) : l <> [] -> In (last l d) l.
Proof.
  induction l as [|a t IH]; intros H; [congruence|].
  destruct t as [|b t]; [left; reflexivity|].
  right. apply IH. discriminate.
Qed.

Lemma last_skipn {A} (n : nat) (l : list A) (d : A) :
  (n < length l)%nat -> last (skipn n l) d = last l d.
Proof.
  revert l. induction n as [|n IH]; intros l H; [reflexivity|].
  destruct l as [|a t]; simpl in H; [lia|].
  simpl skipn. rewrite IH by lia.
  destruct t as [|b t]; [simpl in H; lia | reflexivity].
Qed.

Lemma nth0_removelast_app {A} (L R' : list A) (d : A) :
  (2 <= length L)%nat -> nth 0 (removelast L ++ R') d = nth 0 L d.
Proof.
  intros H. destruct L as [|a [|b t]]; simpl in H; try lia. reflexivity.
Qed.

Lemma op_douglas_peucker_ok (epsilon : R) :
  0 <= epsilon ->
  forall fuel points, points <> [] -> (length points <= fuel)%nat ->
  exists out, op_douglas_peucker fuel points epsilon = Some out /\
    dp_start out = dp_start points /\ dp_end out = dp_end points /\
    incl out points /\ ((2 <= length points)%nat -> (2 <= length out)%nat).
Proof.
  intros He. induction fuel as [|f IH]; intros points Hne Hlen.
  { destruct points; [congruence | simpl in Hlen; lia]. }
  assert (Ends : In (dp_start points) points /\ In (dp_end points) points).
  { split; [apply nth_In; destruct points; [congruence | simpl; lia]|].
    apply last_In_nonempty, Hne. }
  assert (Two : exists out, Some [dp_start points; dp_end points] = Some out /\
    dp_start out = dp_start points /\ dp_end out = dp_end points /\
    incl out points /\ ((2 <= length points)%nat -> (2 <= length out)%nat)).
  { eexists. split; [reflexivity|]. split; [reflexivity|]. split; [reflexivity|].
    split; [|simpl; lia].
    intros x [<-|[<-|[]]]; apply Ends. }
  simpl. set (n := length points) in *.
  destruct (n <=? 2)%nat eqn:Hn.
  { exists points. split; [reflexivity|]. split; [reflexivity|]. split; [reflexivity|].
    split; [apply incl_refl | auto]. }
  apply Nat.leb_gt in Hn.
  destruct (Rlt_dec (dp_line_len points) 1e-6); [exact Two|].
  change (match points with [] => [] | _ :: l => l end) with (skipn 1 points).
  match goal with |- context [op_dp_scan ?s ?u 1 ?pts (0, O)] =>
    pose proof (op_dp_scan_spec s u pts 1 (0, O)) as Spec;
    assert (Hpts : length pts = (n - 2)%nat) by (rewrite length_firstn, length_skipn; lia)
  end.
  destruct (op_dp_scan _ _ 1 _ (0, O)) as [md mi] eqn:Es.
  try rewrite Es in Spec.
  destruct (Rlt_dec epsilon md) as [Hgt|]; [|exact Two].
  assert (Hidx : (1 <= mi <= n - 2)%nat).
  { destruct Spec as [E|[H1 H2]].
    - injection E as E1 _. simpl in E1. lra.
    - cbn [fst snd] in H2. rewrite Hpts in H2. lia. }
  set (left_pts := firstn (mi + 1) points).
  set (right_pts := skipn mi points).
  assert (HL : length left_pts = (mi + 1)%nat)
    by (unfold left_pts; rewrite length_firstn; lia).
  assert (HR : length right_pts = (n - mi)%nat)
    by (unfold right_pts; rewrite length_skipn; reflexivity).
  destruct (IH left_pts) as (L & EL & SL & EL' & IL & NL);
    [intros E; rewrite E in HL; simpl in HL; lia | lia |].
  destruct (IH right_pts) as (R' & ER & SR & ER' & IR & NR);
    [intros E; rewrite E in HR; simpl in HR; lia | lia |].
  rewrite EL, ER. eexists. split; [reflexivity|].
  assert (HL2 : (2 <= length L)%nat) by (apply NL; lia).
  assert (HR2 : (2 <= length R')%nat) by (apply NR; lia).
  split; [|split; [|split]].
  - unfold dp_start. rewrite nth0_removelast_app by exact HL2.
    change (nth 0 L zero2) with (dp_start L). rewrite SL.
    unfold dp_start, left_pts. destruct points as [|p ps]; [congruence|]. rewrite Nat.add_1_r. reflexivity.
  - unfold dp_end. rewrite last_app_nonempty
      by (intros E; rewrite E in HR2; simpl in HR2; lia).
    change (last R' zero2) with (dp_end R'). rewrite ER'.
    unfold dp_end, right_pts. apply last_skipn. lia.
  - intros x Hx. apply in_app_or in Hx as [Hx|Hx].
    + apply In_removelast_l, IL, In_firstn_l in Hx. exact Hx.
    + apply IR, In_skipn_l in Hx. exact Hx.
  - intros _. rewrite length_app. lia.
Qed.





(** With simplification on and a non-negative [epsilon],
    [_extract_waypoints] of a non-empty pose list returns normally, starts
    at the first and ends at the last trajectory point, and returns only
    trajectory points. *)
Theorem op_extract_waypoints_simplify_ok (min_spacing epsilon : R) (poses : list Mat4) :
  0 <= epsilon -> poses <> [] ->
  exists waypoints,
    op_extract_waypoints min_spacing true epsilon poses = Some waypoints /\
    nth 0 waypoints zero2 = nth 0 (wp_trajectory poses) zero2 /\
    last waypoints zero2 = last (wp_trajectory poses) zero2 /\
    incl waypoints (wp_trajectory poses).
Proof.
  intros He Hne. destruct poses as [|P ps]; [congruence|].
  unfold op_extract_waypoints.
  destruct (op_douglas_peucker_ok epsilon He (length (map (fun p => xy (trans p)) (P :: ps)))
              (map (fun p => xy (trans p)) (P :: ps)) ltac:(discriminate) (le_n _))
    as (w & Ew & Sw & Ew' & Iw & _).
  exists w. rewrite Ew. split; [reflexivity|]. auto.
Qed.

Lemma op_extract_waypoints_simplify_ok_witness :
  0 <= 0.1 /\ [eye4] <> [] /\
  exists waypoints,
    op_extract_waypoints 0.5 true 0.1 [eye4] = Some waypoints /\
    nth 0 waypoints zero2 = nth 0 (wp_trajectory [eye4]) zero2 /\
    last waypoints zero2 = last (wp_trajectory [eye4]) zero2 /\
    incl waypoints (wp_trajectory [eye4]).
Proof.
  assert (H1 : 0 <= 0.1) by lra. assert (H2 : [eye4] <> []) by discriminate.
  split; [exact H1|]. split; [exact H2|].
  exact (op_extract_waypoints_simplify_ok 0.5 0.1 [eye4] H1 H2).
Defined.

(** A negative [epsilon] on at least three points that all lie on the line
    through the first and the last one (at least 1e-6 apart) makes
    [_douglas_peucker] call itself on the same points forever (Python's
    [RecursionError]): no recursion depth suffices. *)
Theorem op_douglas_peucker_negative_epsilon (fuel : nat) (points : list V2) (epsilon : R) :
  epsilon < 0 -> (3 <= length points)%nat -> 1e-6 <= dp_line_len points ->
  (forall p, In p points -> dp_distance (dp_start points) (dp_line_unit points) p = 0) ->
  op_douglas_peucker fuel points epsilon = None.
Proof.
  intros He Hn Hl Hd. induction fuel as [|f IH]; [reflexivity|].
  simpl. destruct (length points <=? 2)%nat eqn:E2; [apply Nat.leb_le in E2; lia|].
  destruct (Rlt_dec (dp_line_len points) 1e-6); [lra|].
  rewrite op_dp_scan_flat.
  2: { intros p Hp. simpl. rewrite Hd; [lra|].
       apply In_firstn_l in Hp. destruct points as [|q qs]; [destruct Hp | right; exact Hp]. }
  destruct (Rlt_dec epsilon 0); [|lra].
  simpl skipn. rewrite IH. destruct (op_douglas_peucker f (firstn _ points) epsilon); reflexivity.
Qed.

Lemma op_douglas_peucker_negative_epsilon_witness :
  let pts := [mkV2 0 0; mkV2 1 0; mkV2 2 0] in
  -1 < 0 /\ (3 <= length pts)%nat /\ 1e-6 <= dp_line_len pts /\
  (forall p, In p pts -> dp_distance (dp_start pts) (dp_line_unit pts) p = 0) /\
  op_douglas_peucker 3 pts (-1) = None.
Proof.
  intros pts.
  assert (H1 : -1 < 0) by lra.
  assert (H2 : (3 <= length pts)%nat) by (simpl; lia).
  assert (HL : dp_line_len pts = 2).
  { unfold dp_line_len. apply norm2_axis; simpl; lra. }
  assert (H3 : 1e-6 <= dp_line_len pts) by (rewrite HL; lra).
  assert (H4 : forall p, In p pts -> dp_distance (dp_start pts) (dp_line_unit pts) p = 0).
  { intros p Hp. unfold dp_line_unit. rewrite HL.
    unfold dp_distance, v2sub, v2add, v2scale, dot2.
    destruct Hp as [<-|[<-|[<-|[]]]]; apply norm2_zero; simpl; field. }
  split; [exact H1|]. split; [exact H2|]. split; [exact H3|]. split; [exact H4|].
  exact (op_douglas_peucker_negative_epsilon 3 pts (-1) H1 H2 H3 H4).
Defined.

(** With simplification on, a trajectory of at least three poses that ends
    where it started (in x, y) is reduced to its start point twice. *)
Theorem op_extract_waypoints_closed_loop (min_spacing epsilon : R) (poses : list Mat4) :
  (3 <= length poses)%nat ->
  xy (trans (last poses eye4)) = xy (trans (hd eye4 poses)) ->
  op_extract_waypoints min_spacing true epsilon poses =
  Some [xy (trans (hd eye4 poses)); xy (trans (hd eye4 poses))].
Proof.
  intros Hn Hc. destruct poses as [|P ps]; [simpl in Hn; lia|].
  assert (Hend : dp_end (map (fun p => xy (trans p)) (P :: ps)) = xy (trans P)).
  { unfold dp_end. rewrite (last_map_nonempty _ _ _ eye4) by discriminate. exact Hc. }
  assert (Hstart : dp_start (map (fun p => xy (trans p)) (P :: ps)) = xy (trans P))
    by reflexivity.
  assert (H0 : dp_line_len (map (fun p => xy (trans p)) (P :: ps)) = 0).
  { unfold dp_line_len. rewrite Hend, Hstart. apply norm2_zero; simpl; ring. }
  unfold op_extract_waypoints. cbv zeta.
  remember (map (fun p => xy (trans p)) (P :: ps)) as traj eqn:Et.
  assert (Hn' : (3 <= length traj)%nat) by (rewrite Et, length_map; exact Hn).
  destruct (length traj) as [|f] eqn:Ef; [lia|].
  simpl op_douglas_peucker. rewrite Ef.
  destruct (S f <=? 2)%nat eqn:E2; [apply Nat.leb_le in E2; lia|].
  rewrite H0. destruct (Rlt_dec 0 1e-6) as [_|Hn'']; [|lra].
  simpl. rewrite Hend, Hstart. reflexivity.
Qed.

Lemma op_extract_waypoints_closed_loop_witness :
  let poses := [eye4; translate (mkV3 1 0 0); eye4] in
  (3 <= length poses)%nat /\
  xy (trans (last poses eye4)) = xy (trans (hd eye4 poses)) /\
  op_extract_waypoints 0.5 true 0.1 poses =
  Some [xy (trans (hd eye4 poses)); xy (trans (hd eye4 poses))].
Proof.
  intros poses.
  assert (H1 : (3 <= length poses)%nat) by (simpl; lia).
  assert (H2 : xy (trans (last poses eye4)) = xy (trans (hd eye4 poses))) by reflexivity.
  split; [exact H1|]. split; [exact H2|].
  exact (op_extract_waypoints_closed_loop 0.5 0.1 poses H1 H2).
Defined.
